(** * k8s-handle: the context resolution engine of [config.py]

    A shallow embedding of [config.py] (marker grammars, recursive resolution
    with include history, section loading, key-name and required-variable
    validators, client configuration) and of the argument loop of [main],
    together with the properties stated about them.

    Conventions of the embedding.
    - A Python [str] is a [string]; a character is a code point below 256.
    - A YAML value is a [node]; a Python [dict] is an association list in
      insertion order, its keys being strings.
    - Every [RuntimeError] of the module is a constructor of [error] carrying
      the data that the message is formatted from; the exceptions Python
      raises by itself ([KeyError], [TypeError], [AttributeError]) and the one
      of [filesystem.load_yaml] have a constructor each.
    - [settings], [os.environ] and [filesystem.load_yaml] are not part of the
      module: they are the variables of Section [Config]. *)

From Stdlib Require Import List String Ascii Bool Arith Lia ZArith.
From Stdlib Require Import Sorting.Sorted Sorting.Permutation.
Import ListNotations.

Set Warnings "-register-all".

(* ================================================================== *)
(** * Data model *)

Inductive node : Type :=
| NNull
| NBool (b : bool)
| NInt (z : Z)
| NStr (s : string)
| NSeq (l : list node)
| NMap (d : list (string * node)).

Definition dict : Type := list (string * node).

Inductive error : Type :=
| ReservedSectionRequested (section : string)
| ConfigEmpty (file : string)
| SectionNotFound (section file : string)
| InfiniteIncludeLoop
| MissingEnvVarStrict (env_var_name : string)
| MissingTemplatesOrKubectlKey (file : string)
| InvalidKeyNames (dashes : list string)
| MissingRequiredVars (missing_vars : list string) (file : string)
    (required_vars : list string)
| InvalidYamlError (path : string)
| KeyError (key : string)
| TypeError
| AttributeError.

(** The result of running a piece of the module: a value, a raised
    exception, or [OutOfFuel] when the recursion was cut: a computation that
    is [OutOfFuel] for every amount of fuel is one Python never returns from
    by itself (it dies on the interpreter's recursion limit). *)
Inductive outcome (A : Type) : Type :=
| Ok (a : A)
| Raise (e : error)
| OutOfFuel.

Arguments Ok {A} a.
Arguments Raise {A} e.
Arguments OutOfFuel {A}.

Definition bind {A B} (m : outcome A) (k : A -> outcome B) : outcome B :=
  match m with
  | Ok a => k a
  | Raise e => Raise e
  | OutOfFuel => OutOfFuel
  end.

(* ================================================================== *)
(** * Python dictionaries and operators *)

Module Dict.

Fixpoint get (d : dict) (key : string) : option node :=
  match d with
  | [] => None
  | (k, v) :: d' => if String.eqb k key then Some v else get d' key
  end.

Definition mem (key : string) (d : dict) : bool :=
  match get d key with Some _ => true | None => false end.

(** [d[key] = v]: the value is replaced in place when the key is there,
    the item is added at the end otherwise. *)
Fixpoint set (d : dict) (key : string) (v : node) : dict :=
  match d with
  | [] => [(key, v)]
  | (k, u) :: d' =>
      if String.eqb k key then (k, v) :: d' else (k, u) :: set d' key v
  end.

Definition keys (d : dict) : list string := map fst d.

End Dict.

(** [a in b] for two strings: [a] occurs in [b]. *)
Fixpoint substring_of (a b : string) : bool :=
  String.prefix a b
  || match b with
     | EmptyString => false
     | String _ b' => substring_of a b'
     end.

Definition node_is_str (s : string) (v : node) : bool :=
  match v with NStr t => String.eqb t s | _ => false end.

(** [key in container] *)
Definition py_in (key : string) (container : node) : outcome bool :=
  match container with
  | NMap d => Ok (Dict.mem key d)
  | NSeq l => Ok (existsb (node_is_str key) l)
  | NStr t => Ok (substring_of key t)
  | NNull | NBool _ | NInt _ => Raise TypeError
  end.

(** [container[key]] for a string [key] *)
Definition py_getitem (container : node) (key : string) : outcome node :=
  match container with
  | NMap d =>
      match Dict.get d key with
      | Some v => Ok v
      | None => Raise (KeyError key)
      end
  | _ => Raise TypeError
  end.

(** [value in include_history] *)
Definition mem_str (value : string) (l : list string) : bool :=
  existsb (String.eqb value) l.

(* ================================================================== *)
(** * The two marker grammars

    Both patterns are used through [re.match]: the match starts at the first
    character. In every pattern a repetition is followed by a character it
    cannot consume ([\s] before a letter, [=], a quote or a brace; [[^']*]
    before the quote), so the only choice the matcher has is the length of
    the leading [.*] of [CUSTOM_ENV_RE], which it tries longest first. *)

Module Re.

(** [\s] of a [str] pattern, on the code points below 256 *)
Definition is_space (c : ascii) : bool :=
  let n := nat_of_ascii c in
  ((9 <=? n) && (n <=? 13)) || ((28 <=? n) && (n <=? 32))
  || (n =? 133) || (n =? 160).

Definition newline : ascii := "010"%char.
Definition quote : ascii := "'"%char.

(** [.] without DOTALL *)
Definition is_dot (c : ascii) : bool := negb (Ascii.eqb c newline).

(** a literal piece of the pattern *)
Fixpoint lit (p s : string) : option string :=
  match p with
  | EmptyString => Some s
  | String a p' =>
      match s with
      | String b s' => if Ascii.eqb a b then lit p' s' else None
      | EmptyString => None
      end
  end.

(** [\s?] *)
Definition opt_space (s : string) : string :=
  match s with
  | String c s' => if is_space c then s' else s
  | EmptyString => s
  end.

(** [\s*] *)
Fixpoint many_space (s : string) : string :=
  match s with
  | String c s' => if is_space c then many_space s' else s
  | EmptyString => s
  end.

(** [[^']*'] : the group and what follows the closing quote *)
Fixpoint quoted (s : string) : option (string * string) :=
  match s with
  | EmptyString => None
  | String c s' =>
      if Ascii.eqb c quote then Some (EmptyString, s')
      else match quoted s' with
           | Some (g, r) => Some (String c g, r)
           | None => None
           end
  end.

(** The group [postfix] and [$]: the dots take every character up to a
    newline, and [$] holds at the end of the string or before a newline
    that ends it. *)
Fixpoint dots_end (s : string) : option string :=
  match s with
  | EmptyString => Some EmptyString
  | String c s' =>
      if is_dot c then
        match dots_end s' with
        | Some g => Some (String c g)
        | None => None
        end
      else match s' with
           | EmptyString => Some EmptyString
           | String _ _ => None
           end
  end.

End Re.

Definition obind {A B} (o : option A) (k : A -> option B) : option B :=
  match o with Some a => k a | None => None end.

(** [INCLUDE_RE.match(variable)], giving the group [file] *)
Definition INCLUDE_RE (variable : string) : option string :=
  obind (Re.lit "{{" variable) (fun s =>
  obind (Re.lit "file" (Re.opt_space s)) (fun s =>
  obind (Re.lit "=" (Re.opt_space s)) (fun s =>
  obind (Re.lit "'" (Re.opt_space s)) (fun s =>
  obind (Re.quoted s) (fun '(file, s) =>
  obind (Re.lit "}}" (Re.opt_space s)) (fun _ =>
  Some file)))))).

(** What follows the prefix in [CUSTOM_ENV_RE]: the marker, the postfix and
    the end of the string; gives the groups [env] and [postfix]. *)
Definition env_marker_at (s : string) : option (string * string) :=
  obind (Re.lit "{{" s) (fun s =>
  obind (Re.lit "env" (Re.many_space s)) (fun s =>
  obind (Re.lit "=" (Re.many_space s)) (fun s =>
  obind (Re.lit "'" (Re.many_space s)) (fun s =>
  obind (Re.quoted s) (fun '(env, s) =>
  obind (Re.lit "}}" (Re.many_space s)) (fun s =>
  obind (Re.dots_end s) (fun postfix =>
  Some (env, postfix)))))))).

(** [CUSTOM_ENV_RE.match(variable)], giving the groups [prefix], [env] and
    [postfix]: the greedy group [prefix] is as long as a match allows. *)
Fixpoint CUSTOM_ENV_RE (variable : string)
  : option (string * string * string) :=
  let here :=
    match env_marker_at variable with
    | Some (env, postfix) => Some (EmptyString, env, postfix)
    | None => None
    end in
  match variable with
  | EmptyString => here
  | String c rest =>
      if Re.is_dot c then
        match CUSTOM_ENV_RE rest with
        | Some (prefix, env, postfix) => Some (String c prefix, env, postfix)
        | None => here
        end
      else here
  end.

(* ================================================================== *)
(** * Resolution *)

(** A Python list object is a cell of the heap, a reference is its
    position. The default value of [include_history], the list [[]] built
    when [_update_context_recursively] is defined, is the cell
    [default_history] of the starting heap [heap0]. *)
Definition ref : Type := nat.
Definition heap : Type := list (list string).

Definition default_history : ref := 0.
Definition heap0 : heap := [[]].

(** Computations on the heap; an exception leaves the heap as it is. *)
Definition M (A : Type) : Type := heap -> outcome A * heap.

Definition ret {A} (a : A) : M A := fun h => (Ok a, h).
Definition raise {A} (e : error) : M A := fun h => (Raise e, h).
Definition out_of_fuel {A} : M A := fun h => (OutOfFuel, h).
Definition lift {A} (o : outcome A) : M A := fun h => (o, h).

Definition mbind {A B} (m : M A) (k : A -> M B) : M B :=
  fun h =>
    match m h with
    | (Ok a, h') => k a h'
    | (Raise e, h') => (Raise e, h')
    | (OutOfFuel, h') => (OutOfFuel, h')
    end.

Notation "x <- m ;; k" := (mbind m (fun x => k))
  (at level 61, m at next level, right associativity).

(** the contents of a list object *)
Definition read (r : ref) : M (list string) :=
  fun h => (Ok (nth r h []), h).

(** [copy.copy(l)]: a new list object with the same items *)
Definition copy_list (r : ref) : M ref :=
  fun h => (Ok (List.length h), h ++ [nth r h []]).

Fixpoint heap_update (h : heap) (r : ref) (f : list string -> list string)
  : heap :=
  match h, r with
  | [], _ => []
  | l :: h', O => f l :: h'
  | l :: h', S r' => l :: heap_update h' r' f
  end.

(** [l.append(value)]: the object itself changes *)
Definition append (r : ref) (value : string) : M unit :=
  fun h => (Ok tt, heap_update h r (fun l => l ++ [value])).

(** The loop [for key, value in context.items(): output[key] = f(value)] *)
Fixpoint for_items (f : node -> M node) (items output : dict) : M dict :=
  match items with
  | [] => ret output
  | (key, value) :: items' =>
      v <- f value ;;
      for_items f items' (Dict.set output key v)
  end.

(** The loop [for value in context: output.append(f(value))] *)
Fixpoint for_values (f : node -> M node) (values output : list node)
  : M (list node) :=
  match values with
  | [] => ret output
  | value :: values' =>
      v <- f value ;;
      for_values f values' (output ++ [v])
  end.

(** The same loops without a heap *)
Fixpoint pure_items (f : node -> outcome node) (items output : dict)
  : outcome dict :=
  match items with
  | [] => Ok output
  | (key, value) :: items' =>
      bind (f value) (fun v => pure_items f items' (Dict.set output key v))
  end.

Fixpoint pure_values (f : node -> outcome node) (values output : list node)
  : outcome (list node) :=
  match values with
  | [] => Ok output
  | value :: values' =>
      bind (f value) (fun v => pure_values f values' (output ++ [v]))
  end.

(* ================================================================== *)
(** * Key collection, sorting, merging *)

(** [get_all_nested_keys(result, d)] for a dict [d]: [result] is one list
    object that every call appends to; here it is passed on from call to
    call. *)
Fixpoint get_all_nested_keys (result : list string) (d : node) {struct d}
  : list string :=
  match d with
  | NMap items =>
      fold_left
        (fun result '(key, value) =>
           let result := result ++ [key] in
           match value with
           | NMap _ => get_all_nested_keys result value
           | _ => result
           end)
        items result
  | _ => result
  end.

(** [sorted] on a list of strings: the order of [str] is the order of the
    code points, and equal strings cannot be told apart, so every sorting
    function gives the list that [sorted] gives. *)
Fixpoint insert_sorted (x : string) (l : list string) : list string :=
  match l with
  | [] => [x]
  | y :: l' => if String.leb x y then x :: l else y :: insert_sorted x l'
  end.

Fixpoint sorted (l : list string) : list string :=
  match l with
  | [] => []
  | x :: l' => insert_sorted x (sorted l')
  end.

(** Modelled from the spec: [dictionary.merge], which [config.py] imports
    and which is not among the sources. The spec: for each key present in
    either [base] or [overlay], if the key exists in both and both values
    are mappings, merge them recursively; otherwise the value of [overlay]
    wins if the key exists in [overlay], else the value of [base] is kept.
    The keys of [base] come first, in their order, then the new keys of
    [overlay]. *)
Fixpoint merge_node (base overlay : node) {struct base} : node :=
  match base, overlay with
  | NMap b, NMap o =>
      NMap (map (fun '(key, u) =>
                   (key, match Dict.get o key with
                         | Some v => merge_node u v
                         | None => u
                         end)) b
            ++ filter (fun '(key, _) => negb (Dict.mem key b)) o)
  | _, _ => overlay
  end.

Definition merge (base overlay : dict) : dict :=
  map (fun '(key, u) =>
         (key, match Dict.get overlay key with
               | Some v => merge_node u v
               | None => u
               end)) base
  ++ filter (fun '(key, _) => negb (Dict.mem key base)) overlay.

(** Modelled from the spec: [merge] is specified on two mappings and gives
    a mapping; called on anything else it is taken to raise. *)
Definition py_merge (base overlay : node) : outcome node :=
  match base, overlay with
  | NMap b, NMap o => Ok (NMap (merge b o))
  | _, _ => Raise TypeError
  end.

Section Config.

(** [os.environ.get] *)
Variable environ : string -> option string.
(** [settings.GET_ENVIRON_STRICT], [settings.COMMON_SECTION_NAME],
    [settings.CONFIG_FILE] *)
Variable GET_ENVIRON_STRICT : bool.
Variable COMMON_SECTION_NAME : string.
Variable CONFIG_FILE : string.
(** [filesystem.load_yaml]: the parsed document, [NNull] for an empty
    one, nothing when it raises. *)
Variable load_yaml : string -> option node.

Definition load_yaml_or_raise (path : string) : outcome node :=
  match load_yaml path with
  | Some v => Ok v
  | None => Raise (InvalidYamlError path)
  end.

Definition _process_variable (variable : string) : outcome node :=
  match INCLUDE_RE variable with
  | Some file => load_yaml_or_raise file
  | None =>
      match CUSTOM_ENV_RE variable with
      | Some (prefix, env_var_name, postfix) =>
          match environ env_var_name with
          | None =>
              if GET_ENVIRON_STRICT
              then Raise (MissingEnvVarStrict env_var_name)
              else Ok (NStr (prefix ++ "" ++ postfix)%string)
          | Some value => Ok (NStr (prefix ++ value ++ postfix)%string)
          end
      | None => Ok (NStr variable)
      end
  end.

(** [_update_single_variable] and [_update_context_recursively] call each
    other; [fuel] bounds the depth of the calls of the second. The first
    is the local function [single] below. A call without
    [include_history] gets the default list object. *)
Fixpoint _update_context_recursively (fuel : nat) (context : node)
    (include_history : ref) {struct fuel} : M node :=
  match fuel with
  | O => out_of_fuel
  | S fuel' =>
      let single (value : string) (include_history : ref) : M node :=
        history <- read include_history ;;
        if mem_str value history then raise InfiniteIncludeLoop
        else
          local_history <- copy_list include_history ;;
          _ <- append local_history value ;;
          v <- lift (_process_variable value) ;;
          _update_context_recursively fuel' v local_history in
      let item (value : node) : M node :=
        match value with
        | NStr s => single s include_history
        | _ => _update_context_recursively fuel' value default_history
        end in
      match context with
      | NMap d =>
          output <- for_items item d [] ;;
          ret (NMap output)
      | NSeq l =>
          output <- for_values item l [] ;;
          ret (NSeq output)
      | _ => ret context
      end
  end.

Definition _update_single_variable (fuel : nat) (value : string)
    (include_history : ref) : M node :=
  history <- read include_history ;;
  if mem_str value history then raise InfiniteIncludeLoop
  else
    local_history <- copy_list include_history ;;
    _ <- append local_history value ;;
    v <- lift (_process_variable value) ;;
    _update_context_recursively fuel v local_history.

(** What the two loops of [_update_context_recursively] do with a value *)
Definition update_item (fuel : nat) (include_history : ref) (value : node)
  : M node :=
  match value with
  | NStr s => _update_single_variable fuel s include_history
  | _ => _update_context_recursively fuel value default_history
  end.

(** ** Section loading and the validators *)

Definition get_vars_with_dashes (vars_list : list string) : list string :=
  filter (fun var_name => substring_of "-" var_name) vars_list.

Definition validate_dashes (context : node) : outcome unit :=
  match context with
  | NMap _ =>
      let all_keys := get_all_nested_keys [] context in
      let dashes := get_vars_with_dashes all_keys in
      if negb (List.length dashes =? 0)
      then Raise (InvalidKeyNames (sorted dashes))
      else Ok tt
  | _ => Raise AttributeError
  end.

Definition is_empty_or_none (v : node) : bool :=
  match v with
  | NStr s => String.eqb s ""
  | NNull => true
  | _ => false
  end.

Definition check_required_vars (context_dict : dict)
    (required_vars : list string) : outcome unit :=
  let missing_vars :=
    fold_left
      (fun missing_vars v =>
         if negb (Dict.mem v context_dict)
            || match Dict.get context_dict v with
               | Some x => is_empty_or_none x
               | None => false
               end
         then missing_vars ++ [v]
         else missing_vars)
      required_vars [] in
  if negb (List.length missing_vars =? 0)
  then Raise (MissingRequiredVars missing_vars CONFIG_FILE required_vars)
  else Ok tt.

Definition truthy (s : string) : bool := negb (String.eqb s "").

Definition load_context_section (fuel : nat) (section : string) : M node :=
  if String.eqb section COMMON_SECTION_NAME
  then raise (ReservedSectionRequested COMMON_SECTION_NAME)
  else
    context <- lift (load_yaml_or_raise CONFIG_FILE) ;;
    match context with
    | NNull => raise (ConfigEmpty CONFIG_FILE)
    | _ =>
        absent <- lift (if truthy section
                        then bind (py_in section context)
                               (fun b => Ok (negb b))
                        else Ok false) ;;
        if absent : bool
        then raise (SectionNotFound section CONFIG_FILE)
        else
          (* delete all sections except common and used section *)
          common <- lift (py_getitem context "common") ;;
          used <- lift (py_getitem context section) ;;
          let context :=
            NMap (Dict.set (Dict.set [] "common" common) section used) in
          context <- _update_context_recursively fuel context
                       default_history ;;
          present <- lift (if truthy section then py_in section context
                           else Ok false) ;;
          context <- lift (if present : bool
                           then
                             bind (py_getitem context COMMON_SECTION_NAME)
                               (fun base =>
                             bind (py_getitem context section)
                               (fun overlay => py_merge base overlay))
                           else Ok context) ;;
          no_templates <- lift (bind (py_in "templates" context)
                                  (fun b => Ok (negb b))) ;;
          no_kubectl <- lift (if no_templates : bool
                              then bind (py_in "kubectl" context)
                                     (fun b => Ok (negb b))
                              else Ok false) ;;
          if no_kubectl : bool
          then raise (MissingTemplatesOrKubectlKey CONFIG_FILE)
          else
            _ <- lift (validate_dashes context) ;;
            ret context
    end.

(** ** The resolution as a function of the contents of the history

    The same two functions with the history passed by value; they are
    related to the ones above in [update_refines_resolve]. *)

Fixpoint resolve (fuel : nat) (context : node) (history : list string)
    {struct fuel} : outcome node :=
  match fuel with
  | O => OutOfFuel
  | S fuel' =>
      let item (value : node) : outcome node :=
        match value with
        | NStr s =>
            if mem_str s history then Raise InfiniteIncludeLoop
            else bind (_process_variable s)
                   (fun v => resolve fuel' v (history ++ [s]))
        | _ => resolve fuel' value []
        end in
      match context with
      | NMap d => bind (pure_items item d []) (fun o => Ok (NMap o))
      | NSeq l => bind (pure_values item l []) (fun o => Ok (NSeq o))
      | _ => Ok context
      end
  end.

Definition resolve_single (fuel : nat) (value : string)
    (history : list string) : outcome node :=
  if mem_str value history then Raise InfiniteIncludeLoop
  else bind (_process_variable value)
         (fun v => resolve fuel v (history ++ [value])).

Definition resolve_item (fuel : nat) (history : list string)
    (value : node) : outcome node :=
  match value with
  | NStr s => resolve_single fuel s history
  | _ => resolve fuel value []
  end.

End Config.

(* ================================================================== *)
(** * The vocabulary of the properties *)

Local Open Scope string_scope.

(** [w] is what [\s?] can take, what [\s*] can take; [s] has no quote, no
    newline, no opening brace. *)
Definition opt_ws (w : string) : bool :=
  match w with
  | "" => true
  | String c "" => Re.is_space c
  | _ => false
  end.

Fixpoint all_ws (w : string) : bool :=
  match w with
  | "" => true
  | String c w' => Re.is_space c && all_ws w'
  end.

Fixpoint no_char (a : ascii) (s : string) : bool :=
  match s with
  | "" => true
  | String c s' => negb (Ascii.eqb c a) && no_char a s'
  end.

Definition no_quote : string -> bool := no_char Re.quote.
Definition no_newline : string -> bool := no_char Re.newline.
Definition no_brace : string -> bool := no_char "{"%char.

(** The text of a file-include marker and of an environment marker *)
Definition include_marker (w1 w2 w3 w4 file : string) : string :=
  "{{" ++ w1 ++ "file" ++ w2 ++ "=" ++ w3 ++ "'" ++ file ++ "'" ++ w4 ++ "}}".

Definition env_marker (w1 w2 w3 w4 env : string) : string :=
  "{{" ++ w1 ++ "env" ++ w2 ++ "=" ++ w3 ++ "'" ++ env ++ "'" ++ w4 ++ "}}".

(** The match of [CUSTOM_ENV_RE] with an empty prefix *)
Definition env_here (s : string) : option (string * string * string) :=
  match env_marker_at s with
  | Some (env, postfix) => Some ("", env, postfix)
  | None => None
  end.

(** [s] begins with a file-include marker that names [file]. *)
Definition starts_with_include_marker (s file : string) : Prop :=
  exists w1 w2 w3 w4 tail,
    opt_ws w1 = true /\ opt_ws w2 = true /\ opt_ws w3 = true /\
    opt_ws w4 = true /\ no_quote file = true /\
    s = include_marker w1 w2 w3 w4 file ++ tail.



(** The values that the loops of the resolution go through *)
Definition children (context : node) : list node :=
  match context with
  | NMap d => map snd d
  | NSeq l => l
  | _ => []
  end.

(** The files that the resolution of [v] loads by itself: the ones named
    by the strings that are values of a mapping or items of a sequence
    of [v], at any depth. *)
Fixpoint includes (v : node) : list string :=
  let of_value (value : node) : list string :=
    match value with
    | NStr s => match INCLUDE_RE s with Some file => [file] | None => [] end
    | _ => includes value
    end in
  match v with
  | NMap d => flat_map (fun '(_, value) => of_value value) d
  | NSeq l => flat_map of_value l
  | _ => []
  end.

Definition includes_of_value (value : node) : list string :=
  match value with
  | NStr s => match INCLUDE_RE s with Some file => [file] | None => [] end
  | _ => includes value
  end.

(** The include graph is a finite directed acyclic graph: the files can
    be ranked so that a file only includes files of a lower rank. *)
Definition acyclic (load_yaml : string -> option node)
    (rank : string -> nat) : Prop :=
  forall file v, load_yaml file = Some v ->
  forall g, In g (includes v) -> rank g < rank file.

(** The default list object is there and empty *)
Definition heap_ok (h : heap) : Prop := nth_error h default_history = Some [].

(** The list object [r] is there and holds [history]. *)
Definition sees (r : ref) (history : list string) (h : heap) : Prop :=
  heap_ok h /\ r < List.length h /\ nth r h [] = history.

(** [m] gives [o] and only adds list objects. *)
Definition refines {A} (m : M A) (o : outcome A) (h : heap) : Prop :=
  exists ext, m h = (o, (h ++ ext)%list).

(** Induction on a tree, with the property at hand for the values of a
    mapping and the items of a sequence *)
Fixpoint node_induction (P : node -> Prop)
    (Hnull : P NNull) (Hbool : forall b, P (NBool b))
    (Hint : forall z, P (NInt z)) (Hstr : forall s, P (NStr s))
    (Hseq : forall l, Forall P l -> P (NSeq l))
    (Hmap : forall d, Forall P (map snd d) -> P (NMap d))
    (v : node) {struct v} : P v :=
  let rec := node_induction P Hnull Hbool Hint Hstr Hseq Hmap in
  match v with
  | NNull => Hnull
  | NBool b => Hbool b
  | NInt z => Hint z
  | NStr s => Hstr s
  | NSeq l =>
      Hseq l ((fix all (l : list node) : Forall P l :=
                 match l with
                 | [] => Forall_nil P
                 | x :: l' => Forall_cons x (rec x) (all l')
                 end) l)
  | NMap d =>
      Hmap d ((fix all (d : list (string * node)) : Forall P (map snd d) :=
                 match d with
                 | [] => Forall_nil P
                 | (k, x) :: d' => Forall_cons x (rec x) (all d')
                 end) d)
  end.

(** ** Keys and required variables *)

(** [key] is a key of the mapping [v], or of a mapping reached from [v]
    through values of mappings only. *)
Inductive nested_key (key : string) : node -> Prop :=
| nested_key_here d v : In (key, v) d -> nested_key key (NMap d)
| nested_key_below d k v :
    In (k, v) d -> nested_key key v -> nested_key key (NMap d).

(** [key] is a key of a mapping anywhere in [v], sequences included. *)
Inductive any_key (key : string) : node -> Prop :=
| any_key_here d v : In (key, v) d -> any_key key (NMap d)
| any_key_in_map d k v :
    In (k, v) d -> any_key key v -> any_key key (NMap d)
| any_key_in_seq l v : In v l -> any_key key v -> any_key key (NSeq l).

Definition has_dash (name : string) : bool := negb (no_char "-"%char name).

Definition string_le (a b : string) : Prop := String.leb a b = true.

(** [name] is absent from [context_dict], or null, or the empty string. *)
Definition is_missing (context_dict : dict) (name : string) : bool :=
  match Dict.get context_dict name with
  | None => true
  | Some NNull => true
  | Some (NStr s) => String.eqb s ""
  | Some _ => false
  end.

(** ** Sample documents *)

Module Sample.

(** no environment variable is set *)
Definition no_environ (name : string) : option string := None.

(** [a.yaml] includes itself from a mapping that is a value of its top
    mapping; [config.yaml] includes [a.yaml] in its section [dev]. *)
Definition self_marker : string := "{{ file='a.yaml' }}".

Definition a_yaml : node := NMap [("x", NMap [("y", NStr self_marker)])].

Definition config_yaml : node :=
  NMap [("common", NMap [("templates", NSeq [])]);
        ("dev", NMap [("vars", NStr self_marker)])].

Definition looping_files (path : string) : option node :=
  if path =? "config.yaml" then Some config_yaml
  else if path =? "a.yaml" then Some a_yaml
  else None.

(** [b.yaml] includes itself from a value of its top mapping. *)
Definition b_yaml : node := NMap [("x", NStr "{{ file='b.yaml' }}")].

Definition b_files (path : string) : option node :=
  if path =? "b.yaml" then Some b_yaml else None.

(** [c.yaml] is included by two values of one mapping. *)
Definition shared_files (path : string) : option node :=
  if path =? "c.yaml" then Some (NMap [("p", NInt 1)]) else None.

Definition siblings : node :=
  NMap [("a", NStr "{{ file='c.yaml' }}"); ("b", NStr "{{ file='c.yaml' }}")].

(** [a1.yaml] includes [a2.yaml], which includes nothing. *)
Definition chain_files (path : string) : option node :=
  if path =? "a1.yaml" then Some (NMap [("x", NStr "{{ file='a2.yaml' }}")])
  else if path =? "a2.yaml" then Some (NMap [("y", NInt 1)])
  else None.

Definition chain_rank (path : string) : nat :=
  if path =? "a1.yaml" then 1 else 0.

Definition no_files (path : string) : option node := None.

(** a document without the section [common] *)
Definition no_common_files (path : string) : option node :=
  if path =? "config.yaml"
  then Some (NMap [("dev", NMap [("templates", NSeq [])])])
  else None.

(** a document that has nothing, and one whose section [dev] has a key
    with a dash inside an item of a sequence *)
Definition empty_files (path : string) : option node :=
  if path =? "config.yaml" then Some NNull else None.

Definition dashed_in_sequence : node :=
  NMap [("templates", NSeq [NMap [("my-var", NInt 1)]])].

(** an environment with [A=1], [B=2] and [HOME=/root] *)
Definition some_environ (name : string) : option string :=
  if name =? "A" then Some "1"
  else if name =? "B" then Some "2"
  else if name =? "HOME" then Some "/root"
  else None.

(** [vars.yaml] holds one number. *)
Definition vars_files (path : string) : option node :=
  if path =? "vars.yaml" then Some (NInt 7) else None.

End Sample.

(* ================================================================== *)
(** * The entry point: [main] and [get_client_config] *)

(** The arguments that [main] rewrites before they are parsed *)
Definition explicit_true : list string :=
  ["--sync-mode=true"; "--sync-mode=True"; "--dry-run=true"; "--dry-run=True"].

Definition explicit_false : list string :=
  ["--sync-mode=false"; "--sync-mode=False"; "--dry-run=false";
   "--dry-run=False"].

(** [argument.split('=')[0]]: what comes before the first [=] *)
Fixpoint before_equals (argument : string) : string :=
  match argument with
  | "" => ""
  | String c rest =>
      if Ascii.eqb c "="%char then "" else String c (before_equals rest)
  end.

(** One turn of the loop of [main] over [sys.argv[1:]], on the pair of
    [deprecation_warnings] and [filtered_arguments] *)
Definition filter_argument (state : nat * list string) (argument : string)
  : nat * list string :=
  let '(deprecation_warnings, filtered_arguments) := state in
  if mem_str argument explicit_true
  then (deprecation_warnings + 1,
        (filtered_arguments ++ [before_equals argument])%list)
  else if mem_str argument explicit_false
  then (deprecation_warnings + 1, filtered_arguments)
  else (deprecation_warnings, (filtered_arguments ++ [argument])%list).

Definition filter_arguments (argv : list string) : nat * list string :=
  fold_left filter_argument argv (0, []).

(** The fields of [client.Configuration] that [get_client_config] sets *)
Record Configuration : Type := {
  host : node;
  ssl_ca_cert : string;
  api_key : list (string * string);
  debug : bool
}.

(** [context.get(key)] *)
Definition dict_get_or_none (context : dict) (key : string) : node :=
  match Dict.get context key with
  | Some v => v
  | None => NNull
  end.

(** ["Bearer " + x] *)
Definition bearer (x : node) : outcome string :=
  match x with
  | NStr token => Ok ("Bearer " ++ token)
  | _ => Raise TypeError
  end.

(** [x is True or x == 'true' or x == 'True'] *)
Definition asks_debug (x : node) : bool :=
  match x with
  | NBool b => b
  | NStr s => String.eqb s "true" || String.eqb s "True"
  | _ => false
  end.

Definition of_sum {A} (x : error + A) : outcome A :=
  match x with
  | inl e => Raise e
  | inr a => Ok a
  end.

Section Client.

Variable CONFIG_FILE : string.
(** [client.Configuration()] *)
Variable new_configuration : Configuration.
(** [write_file_tmp(b64decode(x).encode('utf-8'))]: the path of the file
    that was written, or the exception that one of the three raised *)
Variable write_ca_cert : node -> error + string.

Definition get_client_config (context : dict) : outcome Configuration :=
  let c := new_configuration in
  let c := {| host := dict_get_or_none context "k8s_master_uri";
              ssl_ca_cert := ssl_ca_cert c;
              api_key := api_key c;
              debug := debug c |} in
  bind (of_sum (write_ca_cert (dict_get_or_none context "k8s_ca_base64")))
    (fun path =>
  let c := {| host := host c;
              ssl_ca_cert := path;
              api_key := api_key c;
              debug := debug c |} in
  bind (bearer (dict_get_or_none context "k8s_token")) (fun authorization =>
  let c := {| host := host c;
              ssl_ca_cert := ssl_ca_cert c;
              api_key := [("authorization", authorization)];
              debug := debug c |} in
  match Dict.get context "k8s_handle_debug" with
  | Some x =>
      if asks_debug x
      then Ok {| host := host c;
                 ssl_ca_cert := ssl_ca_cert c;
                 api_key := api_key c;
                 debug := true |}
      else Ok c
  | None => Ok c
  end)).

(** What [main] does without [--use-kubeconfig] once the context is
    rendered: [Configuration.set_default(get_client_config(context))], then
    [check_required_vars]; the value is the configuration made the
    default. *)
Definition main_client_config (context : dict) : outcome Configuration :=
  bind (get_client_config context) (fun c =>
  bind (check_required_vars CONFIG_FILE context
          ["k8s_master_uri"; "k8s_token"; "k8s_ca_base64"; "k8s_namespace"])
    (fun _ => Ok c)).

End Client.

(* ================================================================== *)
(** * More vocabulary *)

Fixpoint nodupb (l : list string) : bool :=
  match l with
  | [] => true
  | x :: l' => negb (mem_str x l') && nodupb l'
  end.

(** The keys of every mapping of the tree are distinct, as they are in a
    Python [dict]. *)
Fixpoint well_formed (v : node) : bool :=
  match v with
  | NMap d => nodupb (map fst d) && forallb (fun '(_, x) => well_formed x) d
  | NSeq l => forallb well_formed l
  | _ => true
  end.

(** No string of the tree has an opening brace. *)
Fixpoint brace_free (v : node) : bool :=
  match v with
  | NStr s => no_brace s
  | NSeq l => forallb brace_free l
  | NMap d => forallb (fun '(_, x) => brace_free x) d
  | _ => true
  end.

(** The number of nested calls that a tree without markers takes *)
Fixpoint depth (v : node) : nat :=
  match v with
  | NMap d => S (list_max (map (fun '(_, x) => depth x) d))
  | NSeq l => S (list_max (map depth l))
  | _ => 1
  end.

(** [file] is included from [v], directly or through included files. *)
Inductive reaches (load_yaml : string -> option node)
  : node -> string -> Prop :=
| reaches_here v file : In file (includes v) -> reaches load_yaml v file
| reaches_through v g w file :
    In g (includes v) -> load_yaml g = Some w ->
    reaches load_yaml w file -> reaches load_yaml v file.





(** The include graph reached from [context] is a finite directed acyclic
    graph: the files included from [context], directly or through other
    files, can be ranked so that each of them only includes files of a
    lower rank. *)
Definition acyclic_from (load_yaml : string -> option node)
    (rank : string -> nat) (context : node) : Prop :=
  forall file w, reaches load_yaml context file ->
  load_yaml file = Some w ->
  forall g, In g (includes w) -> rank g < rank file.

(** What [load_context_section] does with the resolved document *)
Definition finish_section (COMMON_SECTION_NAME CONFIG_FILE section : string)
    (context : node) : outcome node :=
  bind (if truthy section then py_in section context else Ok false)
    (fun present =>
  bind (if present : bool
        then bind (py_getitem context COMMON_SECTION_NAME) (fun base =>
             bind (py_getitem context section) (fun overlay =>
             py_merge base overlay))
        else Ok context) (fun context =>
  bind (bind (py_in "templates" context) (fun b => Ok (negb b)))
    (fun no_templates =>
  bind (if no_templates : bool
        then bind (py_in "kubectl" context) (fun b => Ok (negb b))
        else Ok false) (fun no_kubectl =>
  if no_kubectl : bool
  then Raise (MissingTemplatesOrKubectlKey CONFIG_FILE)
  else bind (validate_dashes context) (fun _ => Ok context))))).

(** The result of [_update_context_recursively] on [context] has the shape
    of [context]: the same keys in the same order, the same number of
    items, with [related] between the values at the same place; anything
    but a mapping or a sequence is the result itself. *)
Definition same_shape (related : node -> node -> Prop) (context v : node)
  : Prop :=
  match context with
  | NMap d =>
      exists o, v = NMap o /\ map fst o = map fst d /\
                Forall2 related (map snd d) (map snd o)
  | NSeq l => exists o, v = NSeq o /\ Forall2 related l o
  | _ => v = context
  end.

(** ** More sample documents *)

Module Cases.

(** a document with three sections, the third one including a file that
    does not exist, and the same document without the third section *)
Definition common_section : node :=
  NMap [("templates", NSeq [NMap [("template", NStr "app.yaml.j2")]]);
        ("replicas", NInt 1)].

Definition dev_section : node :=
  NMap [("replicas", NInt 2); ("image", NStr "{{ env='IMAGE' }}")].

Definition three_sections : dict :=
  [("common", common_section); ("dev", dev_section);
   ("prod", NMap [("secrets", NStr "{{ file='missing.yaml' }}")])].

Definition two_sections : dict :=
  [("common", common_section); ("dev", dev_section)].

Definition files_of (document : node) (path : string) : option node :=
  if path =? "config.yaml" then Some document else None.

Definition image_environ (name : string) : option string :=
  if name =? "IMAGE" then Some "nginx:1.21" else None.

(** the context that loading [dev] gives *)
Definition dev_context : dict :=
  [("templates", NSeq [NMap [("template", NStr "app.yaml.j2")]]);
   ("replicas", NInt 2); ("image", NStr "nginx:1.21")].

(** a tree without markers *)
Definition plain_tree : node :=
  NMap [("name", NStr "app"); ("ports", NSeq [NInt 80; NInt 443]);
        ("labels", NMap [("tier", NStr "web"); ("debug", NBool false)])].

(** a heap where the list object [1] holds one marker *)
Definition seen_marker : string := "{{ file='b.yaml' }}".
Definition heap_with_history : heap := [[]; [seen_marker]].

(** the context of a cluster, and the same without the token *)
Definition cluster_context : dict :=
  [("k8s_master_uri", NStr "https://k8s.example.com");
   ("k8s_token", NStr "secret"); ("k8s_ca_base64", NStr "Y2E=");
   ("k8s_namespace", NStr "dev"); ("k8s_handle_debug", NStr "true")].

Definition context_without_token : dict :=
  [("k8s_master_uri", NStr "https://k8s.example.com");
   ("k8s_ca_base64", NStr "Y2E="); ("k8s_namespace", NStr "dev")].

(** a tree that includes [a1.yaml] and has one environment marker *)
Definition chain_context : node :=
  NMap [("k", NStr "{{ file='a1.yaml' }}");
        ("home", NStr "dir={{ env='HOME' }}/app")].

Definition blank_configuration : Configuration :=
  {| host := NNull; ssl_ca_cert := ""; api_key := []; debug := false |}.

Definition write_to_tmp (x : node) : error + string :=
  match x with
  | NStr _ => inr "/tmp/ca.crt"
  | _ => inl TypeError
  end.

End Cases.

(* ================================================================== *)
(** * The marker grammars: what the matchers accept *)

Lemma append_assoc (a b c : string) : (a ++ b) ++ c = a ++ (b ++ c).
Proof. induction a as [|x a IH]; simpl; [reflexivity | now rewrite IH]. Qed.

Lemma append_nil_r (a : string) : a ++ "" = a.
Proof. induction a as [|x a IH]; simpl; [reflexivity | now rewrite IH]. Qed.

Module ReFacts.

Import Re.

Lemma lit_app p s : lit p (p ++ s) = Some s.
Proof.
  induction p as [|a p IH]; simpl; [reflexivity|].
  now rewrite Ascii.eqb_refl.
Qed.

Lemma lit_inv p : forall s r, lit p s = Some r -> s = p ++ r.
Proof.
  induction p as [|a p IH]; simpl; intros s r H.
  - now inversion H.
  - destruct s as [|b s]; [discriminate|].
    destruct (Ascii.eqb_spec a b) as [->|]; [|discriminate].
    now rewrite (IH _ _ H).
Qed.

Lemma opt_space_app w c s :
  opt_ws w = true -> is_space c = false ->
  opt_space (w ++ String c s) = String c s.
Proof.
  destruct w as [|x [|y w]]; simpl; intros Hw Hc.
  - now rewrite Hc.
  - now rewrite Hw.
  - discriminate.
Qed.

Lemma opt_space_inv s : exists w, opt_ws w = true /\ s = w ++ opt_space s.
Proof.
  destruct s as [|c s]; simpl.
  - now exists "".
  - destruct (is_space c) eqn:E.
    + exists (String c ""). simpl. now rewrite E.
    + now exists "".
Qed.

Lemma many_space_app w c s :
  all_ws w = true -> is_space c = false ->
  many_space (w ++ String c s) = String c s.
Proof.
  induction w as [|x w IH]; simpl; intros Hw Hc.
  - now rewrite Hc.
  - apply andb_true_iff in Hw as [-> Hw]. now apply IH.
Qed.

Lemma many_space_inv s : exists w, all_ws w = true /\ s = w ++ many_space s.
Proof.
  induction s as [|c s (w & Hw & IH)]; simpl.
  - now exists "".
  - destruct (is_space c) eqn:E.
    + exists (String c w). simpl. rewrite E, Hw. now rewrite <- IH.
    + now exists "".
Qed.

Lemma quoted_app g s :
  no_quote g = true -> quoted (g ++ String quote s) = Some (g, s).
Proof.
  induction g as [|c g IH]; simpl; intros H.
  - reflexivity.
  - apply andb_true_iff in H as [Hc H].
    apply negb_true_iff in Hc. fold quote. rewrite Hc.
    now rewrite (IH H).
Qed.

Lemma quoted_inv s : forall g r,
  quoted s = Some (g, r) ->
  no_quote g = true /\ s = g ++ String quote r.
Proof.
  induction s as [|c s IH]; simpl; intros g r H; [discriminate|].
  destruct (Ascii.eqb_spec c quote) as [->|Hc].
  - inversion H; subst. now split.
  - destruct (quoted s) as [[g' r']|] eqn:E; [|discriminate].
    inversion H; subst. destruct (IH _ _ eq_refl) as [Hg ->].
    split; [|reflexivity]. unfold no_quote. simpl.
    apply Ascii.eqb_neq in Hc. fold quote. rewrite Hc. exact Hg.
Qed.

Lemma dots_end_app q : no_newline q = true -> dots_end q = Some q.
Proof.
  induction q as [|c q IH]; simpl; intros H; [reflexivity|].
  apply andb_true_iff in H as [Hc H]. unfold is_dot. fold newline.
  rewrite Hc. now rewrite (IH H).
Qed.

Lemma dots_end_app_newline q :
  no_newline q = true -> dots_end (q ++ String newline "") = Some q.
Proof.
  induction q as [|c q IH]; simpl; intros H; [reflexivity|].
  apply andb_true_iff in H as [Hc H]. unfold is_dot. fold newline.
  rewrite Hc. now rewrite (IH H).
Qed.

Lemma dots_end_inv s : forall q,
  dots_end s = Some q ->
  no_newline q = true /\ (s = q \/ s = q ++ String newline "").
Proof.
  induction s as [|c s IH]; simpl; intros q H.
  - inversion H. now split; [|left].
  - destruct (is_dot c) eqn:Hc.
    + destruct (dots_end s) as [g|]; [|discriminate].
      inversion H; subst. destruct (IH _ eq_refl) as [Hg Hs].
      split.
      * unfold no_newline. simpl. unfold is_dot in Hc. fold newline.
        now rewrite Hc.
      * destruct Hs as [->| ->]; [now left | now right].
    + destruct s; [|discriminate]. inversion H; subst.
      split; [reflexivity|]. right. simpl.
      unfold is_dot in Hc. apply negb_false_iff in Hc.
      now apply Ascii.eqb_eq in Hc as ->.
Qed.

End ReFacts.

Lemma no_char_app a s t :
  no_char a (s ++ t) = no_char a s && no_char a t.
Proof.
  induction s as [|c s IH]; simpl; [reflexivity|].
  now rewrite IH, andb_assoc.
Qed.

Lemma all_ws_no_char a w :
  Re.is_space a = false -> all_ws w = true -> no_char a w = true.
Proof.
  intros Ha. induction w as [|c w IH]; simpl; [reflexivity|].
  intros H. apply andb_true_iff in H as [Hc H]. rewrite (IH H), andb_true_r.
  apply negb_true_iff. destruct (Ascii.eqb_spec c a) as [->|]; congruence.
Qed.

Lemma opt_ws_all_ws w : opt_ws w = true -> all_ws w = true.
Proof.
  destruct w as [|c [|d w]]; simpl; intros H; try congruence.
  now rewrite H.
Qed.

Lemma obind_some {A B} (o : option A) (k : A -> option B) b :
  obind o k = Some b -> exists a, o = Some a /\ k a = Some b.
Proof. destruct o as [a|]; simpl; [now exists a | discriminate]. Qed.

(** ** [INCLUDE_RE] *)

Example INCLUDE_RE_plain :
  INCLUDE_RE "{{ file = 'vars.yaml' }}" = Some "vars.yaml"%string.
Proof. reflexivity. Qed.

Example INCLUDE_RE_two_spaces : INCLUDE_RE "{{  file='vars.yaml'}}" = None.
Proof. reflexivity. Qed.

Example CUSTOM_ENV_RE_plain :
  CUSTOM_ENV_RE "prefix-{{ env = 'HOME' }}-suffix"
  = Some ("prefix-", "HOME", "-suffix")%string.
Proof. reflexivity. Qed.

Example CUSTOM_ENV_RE_last :
  CUSTOM_ENV_RE "{{env='A'}}{{env='B'}}"
  = Some ("{{env='A'}}", "B", "")%string.
Proof. reflexivity. Qed.

Lemma INCLUDE_RE_complete w1 w2 w3 w4 file tail :
  opt_ws w1 = true -> opt_ws w2 = true -> opt_ws w3 = true ->
  opt_ws w4 = true -> no_quote file = true ->
  INCLUDE_RE (include_marker w1 w2 w3 w4 file ++ tail) = Some file.
Proof.
  intros H1 H2 H3 H4 Hf. unfold INCLUDE_RE, include_marker.
  repeat rewrite append_assoc. simpl.
  rewrite ReFacts.opt_space_app by (assumption || reflexivity). simpl.
  rewrite ReFacts.opt_space_app by (assumption || reflexivity). simpl.
  rewrite ReFacts.opt_space_app by (assumption || reflexivity). simpl.
  rewrite (ReFacts.quoted_app _ _ Hf). simpl.
  now rewrite ReFacts.opt_space_app by (assumption || reflexivity).
Qed.

Lemma INCLUDE_RE_sound s file :
  INCLUDE_RE s = Some file ->
  exists w1 w2 w3 w4 tail,
    opt_ws w1 = true /\ opt_ws w2 = true /\ opt_ws w3 = true /\
    opt_ws w4 = true /\ no_quote file = true /\
    s = include_marker w1 w2 w3 w4 file ++ tail.
Proof.
  unfold INCLUDE_RE. intros H.
  apply obind_some in H as (s1 & E1 & H).
  apply obind_some in H as (s2 & E2 & H).
  apply obind_some in H as (s3 & E3 & H).
  apply obind_some in H as (s4 & E4 & H).
  apply obind_some in H as ([g s5] & E5 & H).
  apply obind_some in H as (tail & E6 & H).
  destruct (ReFacts.opt_space_inv s1) as (w1 & H1 & Hs1).
  destruct (ReFacts.opt_space_inv s2) as (w2 & H2 & Hs2).
  destruct (ReFacts.opt_space_inv s3) as (w3 & H3 & Hs3).
  destruct (ReFacts.opt_space_inv s5) as (w4 & H4 & Hs5).
  inversion H; subst g.
  apply ReFacts.quoted_inv in E5 as [Hf E5].
  exists w1, w2, w3, w4, tail. repeat (split; [assumption|]).
  apply ReFacts.lit_inv in E1, E2, E3, E4, E6.
  unfold include_marker. repeat rewrite append_assoc.
  rewrite E1. f_equal. rewrite Hs1. f_equal. rewrite E2. f_equal.
  rewrite Hs2. f_equal. rewrite E3. f_equal. rewrite Hs3. f_equal.
  rewrite E4. f_equal. rewrite E5. f_equal. simpl. f_equal.
  rewrite Hs5. f_equal. exact E6.
Qed.

Lemma INCLUDE_RE_tail_irrelevant s tail file :
  INCLUDE_RE s = Some file -> INCLUDE_RE (s ++ tail) = Some file.
Proof.
  intros H. apply INCLUDE_RE_sound in H
    as (w1 & w2 & w3 & w4 & t & H1 & H2 & H3 & H4 & Hf & ->).
  rewrite append_assoc. now apply INCLUDE_RE_complete.
Qed.

(** ** [CUSTOM_ENV_RE] *)

Lemma env_marker_at_complete w1 w2 w3 w4 env postfix :
  all_ws w1 = true -> all_ws w2 = true -> all_ws w3 = true ->
  all_ws w4 = true -> no_quote env = true -> no_newline postfix = true ->
  env_marker_at (env_marker w1 w2 w3 w4 env ++ postfix)
  = Some (env, postfix).
Proof.
  intros H1 H2 H3 H4 He Hq. unfold env_marker_at, env_marker.
  repeat rewrite append_assoc. simpl.
  rewrite ReFacts.many_space_app by (assumption || reflexivity). simpl.
  rewrite ReFacts.many_space_app by (assumption || reflexivity). simpl.
  rewrite ReFacts.many_space_app by (assumption || reflexivity). simpl.
  rewrite (ReFacts.quoted_app _ _ He). simpl.
  rewrite ReFacts.many_space_app by (assumption || reflexivity). simpl.
  now rewrite (ReFacts.dots_end_app _ Hq).
Qed.

Lemma env_marker_at_sound s env postfix :
  env_marker_at s = Some (env, postfix) ->
  exists w1 w2 w3 w4,
    all_ws w1 = true /\ all_ws w2 = true /\ all_ws w3 = true /\
    all_ws w4 = true /\ no_quote env = true /\ no_newline postfix = true /\
    (s = env_marker w1 w2 w3 w4 env ++ postfix \/
     s = env_marker w1 w2 w3 w4 env ++ postfix ++ String Re.newline "").
Proof.
  unfold env_marker_at. intros H.
  apply obind_some in H as (s1 & E1 & H).
  apply obind_some in H as (s2 & E2 & H).
  apply obind_some in H as (s3 & E3 & H).
  apply obind_some in H as (s4 & E4 & H).
  apply obind_some in H as ([g s5] & E5 & H).
  apply obind_some in H as (s6 & E6 & H).
  apply obind_some in H as (q & E7 & H).
  destruct (ReFacts.many_space_inv s1) as (w1 & H1 & Hs1).
  destruct (ReFacts.many_space_inv s2) as (w2 & H2 & Hs2).
  destruct (ReFacts.many_space_inv s3) as (w3 & H3 & Hs3).
  destruct (ReFacts.many_space_inv s5) as (w4 & H4 & Hs5).
  inversion H; subst g q.
  apply ReFacts.quoted_inv in E5 as [He E5].
  apply ReFacts.dots_end_inv in E7 as [Hq E7].
  exists w1, w2, w3, w4. repeat (split; [assumption|]).
  apply ReFacts.lit_inv in E1, E2, E3, E4, E6.
  assert (Hs : s = env_marker w1 w2 w3 w4 env ++ s6).
  { unfold env_marker. repeat rewrite append_assoc.
    rewrite E1. f_equal. rewrite Hs1. f_equal. rewrite E2. f_equal.
    rewrite Hs2. f_equal. rewrite E3. f_equal. rewrite Hs3. f_equal.
    rewrite E4. f_equal. rewrite E5. f_equal. simpl. f_equal.
    rewrite Hs5. f_equal. exact E6. }
  destruct E7 as [E7|E7]; rewrite E7 in Hs; [now left | now right].
Qed.

Lemma CUSTOM_ENV_RE_nil : CUSTOM_ENV_RE "" = None.
Proof. reflexivity. Qed.

Lemma CUSTOM_ENV_RE_cons c rest :
  CUSTOM_ENV_RE (String c rest)
  = if Re.is_dot c then
      match CUSTOM_ENV_RE rest with
      | Some (prefix, env, postfix) => Some (String c prefix, env, postfix)
      | None => env_here (String c rest)
      end
    else env_here (String c rest).
Proof. reflexivity. Qed.

Lemma env_here_inv s prefix env postfix :
  env_here s = Some (prefix, env, postfix) ->
  prefix = "" /\ env_marker_at s = Some (env, postfix).
Proof.
  unfold env_here. destruct (env_marker_at s) as [[e q]|]; [|discriminate].
  intros H. now inversion H.
Qed.

Lemma CUSTOM_ENV_RE_sound s : forall prefix env postfix,
  CUSTOM_ENV_RE s = Some (prefix, env, postfix) ->
  exists r, no_newline prefix = true /\ s = prefix ++ r /\
            env_marker_at r = Some (env, postfix).
Proof.
  induction s as [|c s IH]; intros p e q H.
  - rewrite CUSTOM_ENV_RE_nil in H. discriminate.
  - rewrite CUSTOM_ENV_RE_cons in H.
    assert (Hhere : env_here (String c s) = Some (p, e, q) ->
      exists r, no_newline p = true /\ String c s = p ++ r /\
                env_marker_at r = Some (e, q)).
    { intros H'. apply env_here_inv in H' as [-> H'].
      now exists (String c s). }
    destruct (Re.is_dot c) eqn:Hc; [|now apply Hhere].
    destruct (CUSTOM_ENV_RE s) as [[[p' e'] q']|] eqn:E; [|now apply Hhere].
    inversion H; subst. destruct (IH _ _ _ eq_refl) as (r & Hp & Hs & Hr).
    exists r. split; [|split; [now rewrite Hs | exact Hr]].
    unfold no_newline. simpl. unfold Re.is_dot in Hc.
    fold Re.newline. now rewrite Hc.
Qed.

Lemma CUSTOM_ENV_RE_none r :
  (forall p' r', r = p' ++ r' -> env_marker_at r' = None) ->
  CUSTOM_ENV_RE r = None.
Proof.
  induction r as [|c r IH]; intros H; [reflexivity|].
  rewrite CUSTOM_ENV_RE_cons. unfold env_here.
  rewrite (H "" (String c r) eq_refl).
  rewrite IH; [now destruct (Re.is_dot c)|].
  intros p' r' ->. now apply (H (String c p') r').
Qed.

Lemma CUSTOM_ENV_RE_here r env postfix :
  env_marker_at r = Some (env, postfix) ->
  (forall p' r', r = p' ++ r' -> p' <> "" -> env_marker_at r' = None) ->
  CUSTOM_ENV_RE r = Some ("", env, postfix).
Proof.
  intros Hr H. destruct r as [|c r]; [discriminate|].
  rewrite CUSTOM_ENV_RE_cons. unfold env_here. rewrite Hr.
  rewrite CUSTOM_ENV_RE_none; [now destruct (Re.is_dot c)|].
  intros p' r' ->. now apply (H (String c p') r').
Qed.

Lemma CUSTOM_ENV_RE_prefix p : forall r p0 env postfix,
  no_newline p = true ->
  CUSTOM_ENV_RE r = Some (p0, env, postfix) ->
  CUSTOM_ENV_RE (p ++ r) = Some (p ++ p0, env, postfix).
Proof.
  induction p as [|c p IH]; intros r p0 e q Hp Hr; [exact Hr|].
  apply andb_true_iff in Hp as [Hc Hp].
  change (String c p ++ r) with (String c (p ++ r)).
  rewrite CUSTOM_ENV_RE_cons. unfold Re.is_dot. fold Re.newline in Hc.
  rewrite Hc. now rewrite (IH _ _ _ _ Hp Hr).
Qed.

Lemma env_marker_at_needs_braces s :
  Re.lit "{{" s = None -> env_marker_at s = None.
Proof. unfold env_marker_at. now intros ->. Qed.

Lemma lit_cons a p c s :
  Re.lit (String a p) (String c s)
  = if Ascii.eqb a c then Re.lit p s else None.
Proof. reflexivity. Qed.

Lemma lit_brace_no_brace p s :
  no_brace s = true -> Re.lit (String "{" p) s = None.
Proof.
  destruct s as [|c s]; [reflexivity|]. intros H.
  apply andb_true_iff in H as [Hc _]. apply negb_true_iff in Hc.
  rewrite lit_cons, Ascii.eqb_sym. now rewrite Hc.
Qed.

(** No match begins after the first character of ["{{" ++ x] when [x] has
    no opening brace. *)
Lemma no_later_marker x : no_brace x = true ->
  forall p' r', String "{" (String "{" x) = p' ++ r' -> p' <> "" ->
                env_marker_at r' = None.
Proof.
  intros Hx p' r' E Hp. apply env_marker_at_needs_braces.
  destruct p' as [|a [|b p']]; [congruence| |].
  - inversion E as [[Ha E']]. rewrite lit_cons, Ascii.eqb_refl.
    now apply lit_brace_no_brace.
  - inversion E as [[Ha Hb E']]. apply lit_brace_no_brace.
    unfold no_brace in *. rewrite E', no_char_app in Hx.
    now apply andb_true_iff in Hx as [_ Hx].
Qed.

Lemma env_marker_no_brace w1 w2 w3 w4 env rest :
  all_ws w1 = true -> all_ws w2 = true -> all_ws w3 = true ->
  all_ws w4 = true -> no_brace env = true -> no_brace rest = true ->
  exists x, no_brace x = true /\
            env_marker w1 w2 w3 w4 env ++ rest = String "{" (String "{" x).
Proof.
  intros H1 H2 H3 H4 He Hq. unfold env_marker.
  repeat rewrite append_assoc. simpl. eexists. split; [|reflexivity].
  unfold no_brace in *.
  repeat (rewrite no_char_app || simpl).
  rewrite (all_ws_no_char "{"%char w1 eq_refl H1).
  rewrite (all_ws_no_char "{"%char w2 eq_refl H2).
  rewrite (all_ws_no_char "{"%char w3 eq_refl H3).
  rewrite (all_ws_no_char "{"%char w4 eq_refl H4).
  now rewrite He, Hq.
Qed.

(** The marker that [CUSTOM_ENV_RE] picks when no opening brace follows *)
Lemma CUSTOM_ENV_RE_complete prefix w1 w2 w3 w4 env postfix :
  no_newline prefix = true ->
  all_ws w1 = true -> all_ws w2 = true -> all_ws w3 = true ->
  all_ws w4 = true -> no_quote env = true -> no_brace env = true ->
  no_newline postfix = true -> no_brace postfix = true ->
  CUSTOM_ENV_RE (prefix ++ env_marker w1 w2 w3 w4 env ++ postfix)
  = Some (prefix, env, postfix).
Proof.
  intros Hp H1 H2 H3 H4 He He' Hq Hq'.
  rewrite <- (append_nil_r prefix) at 2.
  apply CUSTOM_ENV_RE_prefix; [exact Hp|].
  apply CUSTOM_ENV_RE_here.
  - now apply env_marker_at_complete.
  - destruct (env_marker_no_brace w1 w2 w3 w4 env postfix H1 H2 H3 H4 He' Hq')
      as (x & Hx & ->).
    now apply no_later_marker.
Qed.

(* ================================================================== *)
(** * Resolution: the list objects and the history *)

Lemma heap_ok_app h ext : heap_ok h -> heap_ok (h ++ ext)%list.
Proof.
  unfold heap_ok, default_history. destruct h; simpl; [discriminate|auto].
Qed.

Lemma heap_update_fresh h l f :
  heap_update (h ++ [l])%list (List.length h) f = (h ++ [f l])%list.
Proof. induction h as [|x h IH]; simpl; [reflexivity | now rewrite IH]. Qed.

Lemma pure_items_raise g items : forall output e,
  pure_items g items output = Raise e ->
  exists v, In v (map snd items) /\ g v = Raise e.
Proof.
  induction items as [|[key value] items IH]; simpl; intros output e H;
    [discriminate|].
  destruct (g value) as [v| e'|] eqn:E; simpl in H; [| |discriminate].
  - destruct (IH _ _ H) as (x & Hx & Hg). exists x. auto.
  - inversion H; subst. exists value. auto.
Qed.

Lemma pure_values_raise g values : forall output e,
  pure_values g values output = Raise e ->
  exists v, In v values /\ g v = Raise e.
Proof.
  induction values as [|value values IH]; simpl; intros output e H;
    [discriminate|].
  destruct (g value) as [v| e'|] eqn:E; simpl in H; [| |discriminate].
  - destruct (IH _ _ H) as (x & Hx & Hg). exists x. auto.
  - inversion H; subst. exists value. auto.
Qed.

Lemma pure_items_total g items : forall output,
  (forall v, In v (map snd items) -> g v <> OutOfFuel) ->
  pure_items g items output <> OutOfFuel.
Proof.
  induction items as [|[key value] items IH]; simpl; intros output H;
    [discriminate|].
  destruct (g value) as [v| e|] eqn:E; simpl.
  - apply IH. auto.
  - discriminate.
  - exfalso. apply (H value); auto.
Qed.

Lemma pure_values_total g values : forall output,
  (forall v, In v values -> g v <> OutOfFuel) ->
  pure_values g values output <> OutOfFuel.
Proof.
  induction values as [|value values IH]; simpl; intros output H;
    [discriminate|].
  destruct (g value) as [v| e|] eqn:E; simpl.
  - apply IH. auto.
  - discriminate.
  - exfalso. apply (H value); auto.
Qed.

Section Resolution.

Variable environ : string -> option string.
Variable GET_ENVIRON_STRICT : bool.
Variable load_yaml : string -> option node.

Local Abbreviation process :=
  (_process_variable environ GET_ENVIRON_STRICT load_yaml).
Local Abbreviation update :=
  (_update_context_recursively environ GET_ENVIRON_STRICT load_yaml).
Local Abbreviation update_single :=
  (_update_single_variable environ GET_ENVIRON_STRICT load_yaml).
Local Abbreviation item :=
  (update_item environ GET_ENVIRON_STRICT load_yaml).
Local Abbreviation resolve_ :=
  (resolve environ GET_ENVIRON_STRICT load_yaml).
Local Abbreviation resolve_single_ :=
  (resolve_single environ GET_ENVIRON_STRICT load_yaml).
Local Abbreviation resolve_item_ :=
  (resolve_item environ GET_ENVIRON_STRICT load_yaml).

(** The equations of the two recursive functions *)
Lemma update_S fuel context r :
  update (S fuel) context r
  = match context with
    | NMap d => output <- for_items (item fuel r) d [] ;; ret (NMap output)
    | NSeq l => output <- for_values (item fuel r) l [] ;; ret (NSeq output)
    | _ => ret context
    end.
Proof. reflexivity. Qed.

Lemma resolve_S fuel context history :
  resolve_ (S fuel) context history
  = match context with
    | NMap d =>
        bind (pure_items (resolve_item_ fuel history) d [])
          (fun o => Ok (NMap o))
    | NSeq l =>
        bind (pure_values (resolve_item_ fuel history) l [])
          (fun o => Ok (NSeq o))
    | _ => Ok context
    end.
Proof. reflexivity. Qed.

Lemma sees_app r history h ext :
  sees r history h -> sees r history (h ++ ext)%list.
Proof.
  intros (Hok & Hr & Hn). repeat split.
  - now apply heap_ok_app.
  - rewrite length_app. lia.
  - now rewrite app_nth1.
Qed.

Lemma sees_default h : heap_ok h -> sees default_history [] h.
Proof.
  unfold heap_ok, default_history. intros H.
  destruct h as [|l h]; [discriminate|].
  inversion H; subst. repeat split; simpl; lia.
Qed.

Lemma for_items_refines r history f g items :
  (forall v h, In v (map snd items) -> sees r history h ->
               refines (f v) (g v) h) ->
  forall output h, sees r history h ->
    refines (for_items f items output) (pure_items g items output) h.
Proof.
  induction items as [|[key value] items IH]; intros Hf output h Hh.
  - exists []. simpl. unfold ret. now rewrite app_nil_r.
  - simpl. unfold refines, mbind.
    destruct (Hf value h (or_introl eq_refl) Hh) as (ext & ->).
    destruct (g value) as [v|e|]; simpl.
    + destruct (IH (fun v h H => Hf v h (or_intror H))
                  (Dict.set output key v) (h ++ ext)%list
                  (sees_app r history h ext Hh)) as (ext' & ->).
      exists (ext ++ ext')%list. now rewrite app_assoc.
    + now exists ext.
    + now exists ext.
Qed.

Lemma for_values_refines r history f g values :
  (forall v h, In v values -> sees r history h ->
               refines (f v) (g v) h) ->
  forall output h, sees r history h ->
    refines (for_values f values output) (pure_values g values output) h.
Proof.
  induction values as [|value values IH]; intros Hf output h Hh.
  - exists []. simpl. unfold ret. now rewrite app_nil_r.
  - simpl. unfold refines, mbind.
    destruct (Hf value h (or_introl eq_refl) Hh) as (ext & ->).
    destruct (g value) as [v|e|]; simpl.
    + destruct (IH (fun v h H => Hf v h (or_intror H))
                  (output ++ [v])%list (h ++ ext)%list
                  (sees_app r history h ext Hh)) as (ext' & ->).
      exists (ext ++ ext')%list. now rewrite app_assoc.
    + now exists ext.
    + now exists ext.
Qed.

Lemma update_single_refines fuel :
  (forall context r history h, sees r history h ->
     refines (update fuel context r) (resolve_ fuel context history) h) ->
  forall value r history h, sees r history h ->
    refines (update_single fuel value r)
            (resolve_single_ fuel value history) h.
Proof.
  intros IH value r history h Hh.
  unfold _update_single_variable, resolve_single, refines, mbind, read.
  destruct Hh as (Hok & Hr & Hn). rewrite Hn.
  destruct (mem_str value history).
  - exists []. unfold raise. now rewrite app_nil_r.
  - unfold copy_list, append, lift. rewrite Hn, heap_update_fresh.
    destruct (process value) as [v|e|]; simpl.
    + destruct (IH v (List.length h) (history ++ [value])%list
                  (h ++ [(history ++ [value])%list])%list) as (ext & ->).
      * repeat split.
        -- now apply heap_ok_app.
        -- rewrite length_app. simpl. lia.
        -- now rewrite app_nth2, Nat.sub_diag by lia.
      * exists ([(history ++ [value])%list] ++ ext)%list.
        now rewrite app_assoc.
    + now exists [(history ++ [value])%list].
    + now exists [(history ++ [value])%list].
Qed.

Lemma update_item_refines fuel :
  (forall context r history h, sees r history h ->
     refines (update fuel context r) (resolve_ fuel context history) h) ->
  forall value r history h, sees r history h ->
    refines (item fuel r value) (resolve_item_ fuel history value) h.
Proof.
  intros IH value r history h Hh.
  assert (Hd : refines (update fuel value default_history)
                       (resolve_ fuel value []) h).
  { apply IH, sees_default. apply Hh. }
  destruct value; try exact Hd.
  now apply update_single_refines.
Qed.

(** The resolution on the heap gives what [resolve] gives on the contents
    of the history, and leaves every list object that was there as it
    was. *)
Lemma update_refines_resolve fuel :
  forall context r history h, sees r history h ->
    refines (update fuel context r) (resolve_ fuel context history) h.
Proof.
  induction fuel as [|fuel IH]; intros context r history h Hh.
  - exists []. simpl. unfold out_of_fuel. now rewrite app_nil_r.
  - rewrite update_S, resolve_S.
    destruct context;
      try (exists []; unfold ret; now rewrite app_nil_r).
    + unfold refines, mbind.
      destruct (for_values_refines r history (item fuel r)
                  (resolve_item_ fuel history) l
                  (fun v h' _ Hh' =>
                     update_item_refines fuel IH v r history h' Hh')
                  [] h Hh) as (ext & ->).
      exists ext. now destruct (pure_values _ l []).
    + unfold refines, mbind.
      destruct (for_items_refines r history (item fuel r)
                  (resolve_item_ fuel history) d
                  (fun v h' _ Hh' =>
                     update_item_refines fuel IH v r history h' Hh')
                  [] h Hh) as (ext & ->).
      exists ext. now destruct (pure_items _ d []).
Qed.

(** ** More fuel does not change a result *)




Lemma bind_ok_out_of_fuel {A B} (m : outcome A) (f : A -> B) :
  bind m (fun a => Ok (f a)) = OutOfFuel -> m = OutOfFuel.
Proof. now destruct m. Qed.




(** ** Termination on an acyclic include graph *)

Lemma process_without_include s :
  INCLUDE_RE s = None ->
  (exists t, process s = Ok (NStr t)) \/ (exists e, process s = Raise e).
Proof.
  intros H. unfold _process_variable. rewrite H.
  destruct (CUSTOM_ENV_RE s) as [[[p e] q]|]; [|eauto].
  destruct (environ e); [eauto|].
  destruct GET_ENVIRON_STRICT; eauto.
Qed.

Section Acyclic.

Variable rank : string -> nat.

(** enough fuel for [context] whatever the history *)
Local Abbreviation enough fuel context :=
  (forall fuel' history, fuel <= fuel' ->
     resolve_ fuel' context history <> OutOfFuel).

Local Abbreviation enough_item fuel value :=
  (forall fuel' history, fuel <= fuel' ->
     resolve_item_ fuel' history value <> OutOfFuel).

Lemma enough_items N values :
  (forall v, In v values ->
     (forall g, In g (includes_of_value v) -> rank g < N) ->
     exists fuel, enough_item fuel v) ->
  (forall g, In g (flat_map includes_of_value values) -> rank g < N) ->
  exists fuel, forall v, In v values -> enough_item fuel v.
Proof.
  induction values as [|value values IH]; intros Hv Hg.
  - exists 0. intros v [].
  - destruct (Hv value (or_introl eq_refl)) as (f1 & H1).
    { intros g Hin. apply Hg. simpl. apply in_or_app. now left. }
    destruct IH as (f2 & H2).
    { intros v Hin. apply Hv. now right. }
    { intros g Hin. apply Hg. simpl. apply in_or_app. now right. }
    exists (Nat.max f1 f2). intros v [<-|Hin] fuel' history Hle.
    + apply H1. lia.
    + apply (H2 v Hin). lia.
Qed.

End Acyclic.

(** ** The claims on the resolution *)

Lemma update_fst fuel context r history h :
  sees r history h ->
  fst (update fuel context r h) = resolve_ fuel context history.
Proof.
  intros H. destruct (update_refines_resolve fuel context r history h H)
    as (ext & ->). reflexivity.
Qed.

Lemma update_item_fst fuel value r history h :
  sees r history h ->
  fst (item fuel r value h) = resolve_item_ fuel history value.
Proof.
  intros H.
  destruct (update_item_refines fuel (update_refines_resolve fuel)
              value r history h H) as (ext & ->).
  reflexivity.
Qed.

(** C9. The include history is local to a branch. A call of
    [_update_context_recursively] on a history object only adds list
    objects to the heap: the history object it was given, and every other
    list that was there, holds what it held before, so the next sibling
    is resolved against the same history. And when the call fails with
    [InfiniteIncludeLoop], one of the values of the mapping, or items of
    the sequence, fails with it when it is resolved on its own, from the
    heap as it was before any of its siblings was visited. *)
Theorem include_history_branch_local fuel context r h :
  heap_ok h -> r < List.length h ->
  (exists ext, snd (update (S fuel) context r h) = (h ++ ext)%list) /\
  nth r (snd (update (S fuel) context r h)) [] = nth r h [] /\
  (fst (update (S fuel) context r h) = Raise InfiniteIncludeLoop ->
   exists value, In value (children context) /\
     fst (item fuel r value h) = Raise InfiniteIncludeLoop).
Proof.
  intros Hok Hr.
  assert (Hs : sees r (nth r h []) h) by (repeat split; assumption).
  destruct (update_refines_resolve (S fuel) context r _ h Hs)
    as (ext & E).
  rewrite E. cbn [fst snd]. split; [now exists ext|].
  split; [now rewrite app_nth1|].
  rewrite resolve_S.
  destruct context as [| b | z | s | l | d]; try discriminate.
  - destruct (pure_values _ l []) as [o|e|] eqn:El; try discriminate.
    simpl. intros He. inversion He; subst e.
    apply pure_values_raise in El as (v & Hin & Hv).
    exists v. split; [exact Hin|].
    now rewrite (update_item_fst fuel v r (nth r h []) h Hs).
  - destruct (pure_items _ d []) as [o|e|] eqn:Ed; try discriminate.
    simpl. intros He. inversion He; subst e.
    apply pure_items_raise in Ed as (v & Hin & Hv).
    exists v. split; [exact Hin|].
    now rewrite (update_item_fst fuel v r (nth r h []) h Hs).
Qed.

End Resolution.

(* ================================================================== *)
(** * A file that includes itself *)

Section SelfInclude.

Import Sample.

Local Abbreviation resolve_ := (resolve no_environ false looping_files).

Lemma process_self_marker :
  _process_variable no_environ false looping_files self_marker = Ok a_yaml.
Proof. reflexivity. Qed.

(** Below the nested mapping the history is empty again, so the marker is
    never found in it. *)
Lemma a_yaml_never_returns fuel :
  resolve_ fuel a_yaml [self_marker] = OutOfFuel /\
  resolve_ fuel (NMap [("y", NStr self_marker)]) [] = OutOfFuel.
Proof.
  induction fuel as [|fuel [IHa IHy]]; [now split|].
  split.
  - unfold a_yaml. rewrite resolve_S.
    cbn [pure_items resolve_item]. now rewrite IHy.
  - rewrite resolve_S. cbn [pure_items resolve_item].
    unfold resolve_single. cbn [mem_str existsb].
    rewrite process_self_marker. cbn [bind app]. now rewrite IHa.
Qed.

Lemma config_yaml_never_returns fuel :
  resolve_ fuel config_yaml [] = OutOfFuel.
Proof.
  destruct fuel as [|[|[|fuel]]]; try reflexivity.
  unfold config_yaml. rewrite resolve_S. cbn [pure_items].
  replace (resolve_item no_environ false looping_files (S (S fuel)) []
             (NMap [("templates", NSeq [])]))
    with (Ok (NMap [("templates", NSeq [])])) by reflexivity.
  cbn [bind resolve_item]. rewrite resolve_S.
  cbn [pure_items resolve_item]. unfold resolve_single.
  cbn [mem_str existsb]. rewrite process_self_marker. cbn [bind app].
  now rewrite (proj1 (a_yaml_never_returns (S fuel))).
Qed.

End SelfInclude.

(** C1, at the input that breaks it. [config.yaml] has the sections
    [common] and [dev]; [dev] includes [a.yaml], and [a.yaml] includes
    itself from a mapping nested in its top mapping. Loading the section
    [dev] never raises [InfiniteIncludeLoop]: whatever the fuel, the call
    is still descending when the fuel is spent. *)
Theorem self_include_below_nested_mapping_never_detected : forall fuel,
  fst (load_context_section Sample.no_environ false "common" "config.yaml"
         Sample.looping_files fuel "dev" heap0) = OutOfFuel.
Proof.
  intros fuel. unfold load_context_section.
  cbn -[_update_context_recursively]. unfold mbind at 1.
  destruct (update_refines_resolve Sample.no_environ false
              Sample.looping_files fuel Sample.config_yaml
              default_history [] heap0) as (ext & E).
  { apply sees_default. reflexivity. }
  unfold Sample.config_yaml in E. rewrite E.
  fold Sample.config_yaml. now rewrite config_yaml_never_returns.
Qed.

(** What the check does catch: a value that is in the history it is
    resolved against, and a file that includes itself from a value of its
    top mapping. *)
Lemma repeated_value_raises environ strict load_yaml fuel value r h :
  mem_str value (nth r h []) = true ->
  fst (_update_single_variable environ strict load_yaml fuel value r h)
  = Raise InfiniteIncludeLoop.
Proof.
  intros H. unfold _update_single_variable, mbind, read. now rewrite H.
Qed.

Example direct_self_include_raises :
  fst (_update_context_recursively Sample.no_environ false Sample.b_files 4
         (NMap [("k", NStr "{{ file='b.yaml' }}")]) default_history heap0)
  = Raise InfiniteIncludeLoop.
Proof. reflexivity. Qed.

Lemma include_history_branch_local_witness :
  fst (_update_context_recursively Sample.no_environ false Sample.shared_files
         3 Sample.siblings default_history heap0)
  = Ok (NMap [("a", NMap [("p", NInt 1)]); ("b", NMap [("p", NInt 1)])])
  /\ (exists ext,
        snd (_update_context_recursively Sample.no_environ false
               Sample.shared_files 3 Sample.siblings default_history heap0)
        = (heap0 ++ ext)%list)
  /\ nth default_history
        (snd (_update_context_recursively Sample.no_environ false
                Sample.shared_files 3 Sample.siblings default_history heap0))
        [] = [].
Proof.
  split; [reflexivity|].
  destruct (include_history_branch_local Sample.no_environ false
              Sample.shared_files 2 Sample.siblings default_history heap0)
    as (Hext & Hnth & _); [reflexivity | apply le_n |].
  split; [exact Hext | exact Hnth].
Defined.

Lemma chain_files_acyclic : acyclic Sample.chain_files Sample.chain_rank.
Proof.
  intros file v H g Hin. unfold Sample.chain_files in H.
  destruct (String.eqb_spec file "a1.yaml") as [->|_].
  - inversion H; subst v. simpl in Hin. destruct Hin as [<-|[]].
    apply le_n.
  - destruct (file =? "a2.yaml"); [|discriminate].
    inversion H; subst v. destruct Hin.
Qed.

Example chain_resolves :
  fst (_update_context_recursively Sample.no_environ false
         Sample.chain_files 4
         (NMap [("k", NStr "{{ file='a1.yaml' }}")]) default_history heap0)
  = Ok (NMap [("k", NMap [("x", NMap [("y", NInt 1)])])]).
Proof. reflexivity. Qed.


(** A string that a file holds as its whole document is not resolved
    either. *)
Example included_scalar_stays :
  let files path := if path =? "s.yaml" then Some (NStr "{{ env='A' }}")
                    else None in
  fst (_update_context_recursively Sample.some_environ false files 2
         (NMap [("k", NStr "{{ file='s.yaml' }}")]) default_history heap0)
  = Ok (NMap [("k", NStr "{{ env='A' }}")]).
Proof. reflexivity. Qed.

(* ================================================================== *)
(** * The two grammars in [_process_variable] *)

Lemma INCLUDE_RE_needs_brace c rest :
  c <> "{"%char -> INCLUDE_RE (String c rest) = None.
Proof.
  intros H. unfold INCLUDE_RE. rewrite lit_cons.
  apply Ascii.eqb_neq in H. rewrite Ascii.eqb_sym. now rewrite H.
Qed.

Section Grammars.

Variable environ : string -> option string.
Variable GET_ENVIRON_STRICT : bool.
Variable load_yaml : string -> option node.

Local Abbreviation process :=
  (_process_variable environ GET_ENVIRON_STRICT load_yaml).

(** C2, as amended. The file-include grammar applies to a string exactly
    when the string begins with a file-include marker: the string is then
    replaced by the document of the file that this marker names, and what
    follows the marker is dropped. A string that does not begin with a
    marker, so one whose first character is not an opening brace, is left
    to the environment grammar: its result does not depend on any file. *)
Theorem file_include_applies_to_leading_marker s :
  (forall file,
     INCLUDE_RE s = Some file <-> starts_with_include_marker s file) /\
  (forall file, starts_with_include_marker s file ->
     process s = load_yaml_or_raise load_yaml file) /\
  ((forall file, ~ starts_with_include_marker s file) ->
   forall load_yaml',
     _process_variable environ GET_ENVIRON_STRICT load_yaml' s
     = process s) /\
  (forall c rest, s = String c rest -> c <> "{"%char ->
     forall file, ~ starts_with_include_marker s file).
Proof.
  assert (Hiff : forall file,
    INCLUDE_RE s = Some file <-> starts_with_include_marker s file).
  { intros file. split.
    - apply INCLUDE_RE_sound.
    - intros (w1 & w2 & w3 & w4 & tail & H1 & H2 & H3 & H4 & Hf & ->).
      now apply INCLUDE_RE_complete. }
  split; [exact Hiff|]. split; [|split].
  - intros file H. apply Hiff in H. unfold _process_variable.
    now rewrite H.
  - intros H load_yaml'. unfold _process_variable.
    destruct (INCLUDE_RE s) as [file|] eqn:E; [|reflexivity].
    now elim (H file); apply Hiff.
  - intros c rest -> Hc file H. apply Hiff in H.
    rewrite INCLUDE_RE_needs_brace in H by exact Hc. discriminate.
Qed.

(** C3, as amended. Take a string [prefix + marker + suffix] where the
    marker is an environment marker naming [E], where [prefix] and
    [suffix] have no line break, where neither [E] nor [suffix] has an
    opening brace, so that the marker is the last one, and which does not
    begin with a file-include marker. If [E] is set the string becomes
    [prefix + value + suffix]; if it is not set, the resolution fails
    with [MissingEnvVarStrict] in strict mode and the string becomes
    [prefix + suffix] otherwise. That string is the resolved value: it is
    not resolved again. *)
Theorem env_marker_substitution prefix w1 w2 w3 w4 E suffix :
  no_newline prefix = true ->
  all_ws w1 = true -> all_ws w2 = true -> all_ws w3 = true ->
  all_ws w4 = true -> no_quote E = true -> no_brace E = true ->
  no_newline suffix = true -> no_brace suffix = true ->
  INCLUDE_RE (prefix ++ env_marker w1 w2 w3 w4 E ++ suffix) = None ->
  process (prefix ++ env_marker w1 w2 w3 w4 E ++ suffix)
  = match environ E with
    | Some value => Ok (NStr (prefix ++ value ++ suffix))
    | None =>
        if GET_ENVIRON_STRICT then Raise (MissingEnvVarStrict E)
        else Ok (NStr (prefix ++ suffix))
    end
  /\ forall fuel r h,
       mem_str (prefix ++ env_marker w1 w2 w3 w4 E ++ suffix) (nth r h [])
       = false ->
       fst (_update_single_variable environ GET_ENVIRON_STRICT load_yaml
              (S fuel) (prefix ++ env_marker w1 w2 w3 w4 E ++ suffix) r h)
       = process (prefix ++ env_marker w1 w2 w3 w4 E ++ suffix).
Proof.
  intros Hp H1 H2 H3 H4 He He' Hq Hq' Hinc.
  assert (Hproc :
    process (prefix ++ env_marker w1 w2 w3 w4 E ++ suffix)
    = match environ E with
      | Some value => Ok (NStr (prefix ++ value ++ suffix))
      | None =>
          if GET_ENVIRON_STRICT then Raise (MissingEnvVarStrict E)
          else Ok (NStr (prefix ++ suffix))
      end).
  { unfold _process_variable. rewrite Hinc.
    now rewrite CUSTOM_ENV_RE_complete. }
  split; [exact Hproc|].
  intros fuel r h Hmem.
  unfold _update_single_variable, mbind, read. rewrite Hmem.
  unfold copy_list, append, lift. rewrite Hproc.
  destruct (environ E); [reflexivity|].
  now destruct GET_ENVIRON_STRICT.
Qed.

End Grammars.

(** The claim C2 as it stands fails: text after the marker does not keep the
    file-include grammar from applying. *)
Lemma file_include_with_trailing_text :
  INCLUDE_RE "{{ file = 'vars.yaml' }}-dev" = Some "vars.yaml"
  /\ _process_variable Sample.no_environ false Sample.vars_files
       "{{ file = 'vars.yaml' }}-dev" = Ok (NInt 7).
Proof. split; reflexivity. Qed.

Example file_include_with_leading_text :
  _process_variable Sample.no_environ false Sample.vars_files
    "dev-{{ file = 'vars.yaml' }}" = Ok (NStr "dev-{{ file = 'vars.yaml' }}").
Proof. reflexivity. Qed.

(** The claim C3 as it stands fails: with the marker of [A] followed by a
    suffix that holds the marker of [B], it is [B] that is substituted, and
    the marker of [A] stays. *)
Lemma env_marker_followed_by_marker :
  _process_variable Sample.some_environ false Sample.no_files
    ("" ++ env_marker " " " " " " " " "A" ++ "{{ env = 'B' }}")
  = Ok (NStr "{{ env = 'A' }}2")
  /\ _process_variable Sample.some_environ false Sample.no_files
       ("" ++ env_marker " " " " " " " " "A" ++ "{{ env = 'B' }}")
     <> Ok (NStr ("" ++ "1" ++ "{{ env = 'B' }}")).
Proof. split; [reflexivity | discriminate]. Qed.

Example env_marker_suffix_with_newline :
  _process_variable Sample.some_environ false Sample.no_files
    (env_marker "" "" "" "" "A" ++ String Re.newline "")
  = Ok (NStr "1").
Proof. reflexivity. Qed.

Lemma env_marker_substitution_witness :
  _process_variable Sample.some_environ false Sample.no_files
    "prefix-{{ env = 'HOME' }}-suffix"
  = Ok (NStr "prefix-/root-suffix").
Proof.
  apply (env_marker_substitution Sample.some_environ false Sample.no_files
           "prefix-" " " " " " " " " "HOME" "-suffix");
    reflexivity.
Defined.

Example env_marker_unset :
  _process_variable Sample.no_environ false Sample.no_files
    "{{ env = 'UNSET_VAR' }}" = Ok (NStr "")
  /\ _process_variable Sample.no_environ true Sample.no_files
       "{{ env = 'UNSET_VAR' }}" = Raise (MissingEnvVarStrict "UNSET_VAR").
Proof. split; reflexivity. Qed.

(* ================================================================== *)
(** * Merging *)

Lemma get_app d1 d2 key :
  Dict.get (d1 ++ d2)%list key
  = match Dict.get d1 key with
    | Some v => Some v
    | None => Dict.get d2 key
    end.
Proof.
  induction d1 as [|[k v] d1 IH]; simpl; [reflexivity|].
  now destruct (k =? key).
Qed.

Lemma get_map_values (f : string -> node -> node) d key :
  Dict.get (map (fun '(k, u) => (k, f k u)) d) key
  = option_map (f key) (Dict.get d key).
Proof.
  induction d as [|[k v] d IH]; simpl; [reflexivity|].
  destruct (String.eqb_spec k key) as [->|]; [reflexivity | exact IH].
Qed.

Lemma get_filter_keys (keep : string -> bool) d key :
  keep key = true ->
  Dict.get (filter (fun '(k, _) => keep k) d) key = Dict.get d key.
Proof.
  intros Hk. induction d as [|[k v] d IH]; simpl; [reflexivity|].
  destruct (String.eqb_spec k key) as [->|Hne].
  - rewrite Hk. simpl. now rewrite String.eqb_refl.
  - destruct (keep k); [|exact IH]. simpl.
    apply String.eqb_neq in Hne. now rewrite Hne.
Qed.

Lemma merge_node_maps b o : merge_node (NMap b) (NMap o) = NMap (merge b o).
Proof. reflexivity. Qed.

(** C5. For every key, the merged mapping holds: the recursive merge of the
    two values when the key is in both mappings and both values are
    mappings; the value of the overlay when the key is in the overlay, in
    every other case; the value of the base when the key is in the base
    only; nothing when it is in neither. Two sequences are not merged
    item by item: the one of the overlay replaces the other. *)
Theorem merge_is_right_biased :
  (forall base overlay key,
     Dict.get (merge base overlay) key
     = match Dict.get base key, Dict.get overlay key with
       | Some (NMap b), Some (NMap o) => Some (NMap (merge b o))
       | _, Some v => Some v
       | Some u, None => Some u
       | None, None => None
       end) /\
  (forall l1 l2, merge_node (NSeq l1) (NSeq l2) = NSeq l2) /\
  merge [("a", NInt 1); ("b", NMap [("x", NInt 1)])]
        [("b", NMap [("y", NInt 2)]); ("c", NInt 3)]
  = [("a", NInt 1); ("b", NMap [("x", NInt 1); ("y", NInt 2)]);
     ("c", NInt 3)] /\
  merge [("b", NMap [("x", NInt 1)])] [("b", NInt 5)] = [("b", NInt 5)].
Proof.
  split; [|repeat split].
  intros base overlay key. unfold merge. rewrite get_app.
  rewrite (get_map_values
             (fun k u => match Dict.get overlay k with
                         | Some v => merge_node u v
                         | None => u
                         end)).
  destruct (Dict.get base key) as [u|] eqn:Eb; simpl.
  - destruct (Dict.get overlay key) as [v|]; [|now destruct u].
    destruct u, v; reflexivity.
  - rewrite (get_filter_keys (fun k => negb (Dict.mem k base))).
    + now destruct (Dict.get overlay key).
    + unfold Dict.mem. now rewrite Eb.
Qed.

(* ================================================================== *)
(** * The key-name validator *)

Lemma substring_of_cons a c s :
  substring_of a (String c s)
  = String.prefix a (String c s) || substring_of a s.
Proof. reflexivity. Qed.

Lemma prefix_one_char a c s :
  String.prefix (String a "") (String c s) = Ascii.eqb c a.
Proof.
  change (String.prefix (String a "") (String c s))
    with (if ascii_dec a c then String.prefix "" s else false).
  destruct (ascii_dec a c) as [->|Hne].
  - rewrite Ascii.eqb_refl. now destruct s.
  - symmetry. apply Ascii.eqb_neq. congruence.
Qed.

Lemma substring_of_dash name : substring_of "-" name = has_dash name.
Proof.
  unfold has_dash. induction name as [|c name IH]; [reflexivity|].
  rewrite substring_of_cons, IH, prefix_one_char. cbn [no_char].
  now destruct (Ascii.eqb c "-").
Qed.

Lemma get_vars_with_dashes_filter vars_list :
  get_vars_with_dashes vars_list = filter has_dash vars_list.
Proof.
  unfold get_vars_with_dashes. apply filter_ext.
  intros name. apply substring_of_dash.
Qed.

Lemma get_all_nested_keys_map result items :
  get_all_nested_keys result (NMap items)
  = fold_left
      (fun result '(key, value) => get_all_nested_keys (result ++ [key]) value)
      items result.
Proof.
  simpl. revert result.
  induction items as [|[k v] items IH]; intros result; [reflexivity|].
  simpl. rewrite <- IH. now destruct v.
Qed.

Lemma get_all_nested_keys_acc v : forall result,
  get_all_nested_keys result v
  = (result ++ get_all_nested_keys [] v)%list.
Proof.
  induction v as [| | | | |d IH] using node_induction; intros result;
    try (simpl; now rewrite app_nil_r).
  rewrite !get_all_nested_keys_map. revert result.
  induction d as [|[k v] d IHd]; intros result; simpl.
  - now rewrite app_nil_r.
  - inversion IH as [|? ? Hv Hd]; subst.
    rewrite (IHd Hd (get_all_nested_keys (result ++ [k]) v)).
    rewrite (IHd Hd (get_all_nested_keys [k] v)).
    rewrite (Hv (result ++ [k])%list), (Hv [k]).
    now rewrite <- !app_assoc.
Qed.

Lemma get_all_nested_keys_flat d :
  get_all_nested_keys [] (NMap d)
  = flat_map (fun '(key, value) => key :: get_all_nested_keys [] value) d.
Proof.
  rewrite get_all_nested_keys_map.
  induction d as [|[k v] d IH]; [reflexivity|].
  simpl. rewrite get_all_nested_keys_acc.
  rewrite <- get_all_nested_keys_map, get_all_nested_keys_acc.
  now rewrite get_all_nested_keys_map, IH.
Qed.

Lemma nested_key_collected key v :
  nested_key key v -> In key (get_all_nested_keys [] v).
Proof.
  induction 1 as [d v Hin | d k v Hin Hv IH];
    rewrite get_all_nested_keys_flat; apply in_flat_map.
  - exists (key, v). split; [exact Hin | now left].
  - exists (k, v). split; [exact Hin | now right].
Qed.

Lemma collected_nested_key key v :
  In key (get_all_nested_keys [] v) -> nested_key key v.
Proof.
  induction v as [| | | | |d IH] using node_induction; try (now intros []).
  rewrite get_all_nested_keys_flat. intros H.
  apply in_flat_map in H as ([k v] & Hin & [<-|Hk]).
  - now apply nested_key_here with v.
  - apply nested_key_below with k v; [exact Hin|].
    rewrite Forall_forall in IH. apply IH; [|exact Hk].
    apply in_map_iff. now exists (k, v).
Qed.

Lemma insert_sorted_perm x l : Permutation (insert_sorted x l) (x :: l).
Proof.
  induction l as [|y l IH]; simpl; [reflexivity|].
  destruct (String.leb x y); [reflexivity|].
  rewrite IH. apply perm_swap.
Qed.

Lemma sorted_perm l : Permutation (sorted l) l.
Proof.
  induction l as [|x l IH]; simpl; [reflexivity|].
  rewrite insert_sorted_perm. now apply perm_skip.
Qed.

Lemma insert_sorted_sorted x l :
  Sorted string_le l -> Sorted string_le (insert_sorted x l).
Proof.
  induction 1 as [|y l Hl IH Hy]; simpl.
  - repeat constructor.
  - destruct (String.leb x y) eqn:E.
    + constructor; [now constructor | now constructor].
    + assert (Hyx : string_le y x).
      { destruct (String.leb_total x y) as [H|H]; [congruence | exact H]. }
      constructor; [exact IH|].
      destruct l as [|z l]; simpl.
      * now constructor.
      * destruct (String.leb x z); constructor; [exact Hyx|].
        now inversion Hy.
Qed.

Lemma sorted_sorted l : Sorted string_le (sorted l).
Proof.
  induction l as [|x l IH]; simpl; [constructor|].
  now apply insert_sorted_sorted.
Qed.

Lemma validate_dashes_map d :
  validate_dashes (NMap d)
  = match filter has_dash (get_all_nested_keys [] (NMap d)) with
    | [] => Ok tt
    | names => Raise (InvalidKeyNames (sorted names))
    end.
Proof.
  unfold validate_dashes. rewrite get_vars_with_dashes_filter.
  now destruct (filter has_dash (get_all_nested_keys [] (NMap d))).
Qed.

(* ================================================================== *)
(** * Loading a section *)

Section Loader.

Variable environ : string -> option string.
Variable GET_ENVIRON_STRICT : bool.
Variable COMMON_SECTION_NAME : string.
Variable CONFIG_FILE : string.
Variable load_yaml : string -> option node.

Local Abbreviation load :=
  (load_context_section environ GET_ENVIRON_STRICT COMMON_SECTION_NAME
     CONFIG_FILE load_yaml).

(** C7, as amended. Asking for the reserved section fails with
    [ReservedSectionRequested], whatever the document is and even when it
    cannot be loaded. For another section, a document that is empty, which
    [load_yaml] returns as [None], fails with [ConfigEmpty]; a document
    that cannot be loaded does not: the exception of [load_yaml] goes
    through. And a document that is a mapping fails with [SectionNotFound]
    when the name is not empty and is not one of its keys. *)
Theorem load_section_early_failures fuel section h :
  (section = COMMON_SECTION_NAME ->
   fst (load fuel section h)
   = Raise (ReservedSectionRequested COMMON_SECTION_NAME)) /\
  (section <> COMMON_SECTION_NAME ->
   load_yaml CONFIG_FILE = Some NNull ->
   fst (load fuel section h) = Raise (ConfigEmpty CONFIG_FILE)) /\
  (section <> COMMON_SECTION_NAME ->
   forall d, load_yaml CONFIG_FILE = Some (NMap d) ->
   section <> "" -> Dict.mem section d = false ->
   fst (load fuel section h)
   = Raise (SectionNotFound section CONFIG_FILE)) /\
  (section <> COMMON_SECTION_NAME ->
   load_yaml CONFIG_FILE = None ->
   fst (load fuel section h) = Raise (InvalidYamlError CONFIG_FILE)).
Proof.
  unfold load_context_section. repeat split.
  - intros ->. now rewrite String.eqb_refl.
  - intros Hs Hl. apply String.eqb_neq in Hs. rewrite Hs.
    unfold mbind, lift, load_yaml_or_raise. now rewrite Hl.
  - intros Hs d Hl Hne Hmem. apply String.eqb_neq in Hs. rewrite Hs.
    unfold mbind, lift, load_yaml_or_raise, truthy. rewrite Hl.
    apply String.eqb_neq in Hne. rewrite Hne. simpl. now rewrite Hmem.
  - intros Hs Hl. apply String.eqb_neq in Hs. rewrite Hs.
    unfold mbind, lift, load_yaml_or_raise. now rewrite Hl.
Qed.

(** C10. When the name passes the three checks and the document, a
    mapping, has no key [common], the reduction of the document to the
    two sections raises the [KeyError] of the lookup of [common]. *)
Theorem missing_common_section_is_key_error fuel section h d :
  section <> COMMON_SECTION_NAME ->
  load_yaml CONFIG_FILE = Some (NMap d) ->
  section = "" \/ Dict.mem section d = true ->
  Dict.mem "common" d = false ->
  fst (load fuel section h) = Raise (KeyError "common").
Proof.
  intros Hs Hl Hsec Hc. unfold load_context_section.
  apply String.eqb_neq in Hs. rewrite Hs.
  unfold mbind, lift, load_yaml_or_raise, truthy. rewrite Hl.
  assert (Ha : (if negb (section =? "")
                then bind (py_in section (NMap d)) (fun b => Ok (negb b))
                else Ok false) = Ok false).
  { destruct Hsec as [->|Hm]; [reflexivity|].
    destruct (section =? ""); [reflexivity|]. simpl. now rewrite Hm. }
  rewrite Ha. unfold py_getitem. unfold Dict.mem in Hc.
  now destruct (Dict.get d "common").
Qed.

(** A context that [load_context_section] returns has passed the
    validator. *)
Lemma loaded_context_is_validated fuel section h context :
  fst (load fuel section h) = Ok context ->
  validate_dashes context = Ok tt.
Proof.
  unfold load_context_section, mbind, lift, raise, ret.
  repeat match goal with
         | |- context [match ?x with _ => _ end] =>
             destruct x eqn:?; try discriminate
         | |- context [if ?x then _ else _] =>
             destruct x eqn:?; try discriminate
         end.
  all: cbn [fst]; intros E; inversion E; subst;
    match goal with
    | H : validate_dashes ?c = Ok ?u |- validate_dashes ?c = Ok tt =>
        rewrite H; now destruct u
    end.
Qed.

(** C8. [check_required_vars] passes when no required name is absent,
    null or the empty string; otherwise it fails once, with all the
    required names that are, in the order they are required in. With
    [a] set to a string and [b] to the empty string, requiring [a] and
    [b] fails naming [b] alone. *)
Theorem required_vars_are_aggregated context_dict required_vars :
  check_required_vars CONFIG_FILE context_dict required_vars
  = match filter (is_missing context_dict) required_vars with
    | [] => Ok tt
    | missing =>
        Raise (MissingRequiredVars missing CONFIG_FILE required_vars)
    end
  /\ (check_required_vars CONFIG_FILE context_dict required_vars <> Ok tt
      <-> exists name, In name required_vars /\
                       is_missing context_dict name = true)
  /\ (forall name,
        In name (filter (is_missing context_dict) required_vars)
        <-> In name required_vars /\ is_missing context_dict name = true)
  /\ check_required_vars CONFIG_FILE [("a", NStr "x"); ("b", NStr "")]
       ["a"; "b"]
     = Raise (MissingRequiredVars ["b"] CONFIG_FILE ["a"; "b"]).
Proof.
  assert (Hfold : forall names acc,
    fold_left
      (fun missing_vars v =>
         if negb (Dict.mem v context_dict)
            || match Dict.get context_dict v with
               | Some x => is_empty_or_none x
               | None => false
               end
         then (missing_vars ++ [v])%list
         else missing_vars) names acc
    = (acc ++ filter (is_missing context_dict) names)%list).
  { induction names as [|v names IH]; intros acc; simpl.
    - now rewrite app_nil_r.
    - rewrite IH. unfold is_missing, Dict.mem.
      destruct (Dict.get context_dict v) as [[| | |s| |]|]; simpl;
        try reflexivity; try (now rewrite <- app_assoc).
      destruct (s =? ""); simpl; [now rewrite <- app_assoc | reflexivity]. }
  assert (Heq :
    check_required_vars CONFIG_FILE context_dict required_vars
    = match filter (is_missing context_dict) required_vars with
      | [] => Ok tt
      | missing =>
          Raise (MissingRequiredVars missing CONFIG_FILE required_vars)
      end).
  { unfold check_required_vars. rewrite Hfold. simpl.
    now destruct (filter (is_missing context_dict) required_vars). }
  split; [exact Heq|].
  split; [|split; [intros name; apply filter_In | reflexivity]].
  rewrite Heq. split.
  - destruct (filter (is_missing context_dict) required_vars)
      as [|name l] eqn:E; [now intros H; elim H|].
    intros _. exists name. apply filter_In. rewrite E. now left.
  - intros (name & Hin). apply filter_In in Hin.
    destruct (filter (is_missing context_dict) required_vars);
      [now elim Hin | discriminate].
Qed.

End Loader.

(** The claim C7 as it stands fails: a configuration file that is absent
    does not fail with [ConfigEmpty]. *)
Lemma absent_document_is_not_config_empty :
  Sample.no_files "config.yaml" = None
  /\ fst (load_context_section Sample.no_environ false "common"
            "config.yaml" Sample.no_files 3 "dev" heap0)
     = Raise (InvalidYamlError "config.yaml")
  /\ fst (load_context_section Sample.no_environ false "common"
            "config.yaml" Sample.no_files 3 "dev" heap0)
     <> Raise (ConfigEmpty "config.yaml").
Proof. repeat split. discriminate. Qed.

Lemma load_section_early_failures_witness :
  fst (load_context_section Sample.no_environ false "common" "config.yaml"
         Sample.looping_files 0 "common" heap0)
  = Raise (ReservedSectionRequested "common")
  /\ fst (load_context_section Sample.no_environ false "common" "config.yaml"
            Sample.empty_files 0 "dev" heap0)
     = Raise (ConfigEmpty "config.yaml")
  /\ fst (load_context_section Sample.no_environ false "common" "config.yaml"
            Sample.looping_files 0 "prod" heap0)
     = Raise (SectionNotFound "prod" "config.yaml")
  /\ fst (load_context_section Sample.no_environ false "common" "config.yaml"
            Sample.no_files 0 "dev" heap0)
     = Raise (InvalidYamlError "config.yaml").
Proof.
  split; [|split; [|split]].
  - now apply (load_section_early_failures Sample.no_environ false "common"
                 "config.yaml" Sample.looping_files 0 "common" heap0).
  - apply (load_section_early_failures Sample.no_environ false "common"
             "config.yaml" Sample.empty_files 0 "dev" heap0);
      [discriminate | reflexivity].
  - apply (load_section_early_failures Sample.no_environ false "common"
             "config.yaml" Sample.looping_files 0 "prod" heap0)
      with (d := [("common", NMap [("templates", NSeq [])]);
                  ("dev", NMap [("vars", NStr Sample.self_marker)])]);
      [discriminate | reflexivity | discriminate | reflexivity].
  - apply (load_section_early_failures Sample.no_environ false "common"
             "config.yaml" Sample.no_files 0 "dev" heap0);
      [discriminate | reflexivity].
Defined.

Lemma missing_common_section_is_key_error_witness :
  fst (load_context_section Sample.no_environ false "common" "config.yaml"
         Sample.no_common_files 5 "dev" heap0)
  = Raise (KeyError "common").
Proof.
  apply (missing_common_section_is_key_error Sample.no_environ false "common"
           "config.yaml" Sample.no_common_files 5 "dev" heap0
           [("dev", NMap [("templates", NSeq [])])]).
  - discriminate.
  - reflexivity.
  - right. reflexivity.
  - reflexivity.
Defined.

Lemma required_vars_are_aggregated_witness :
  check_required_vars "config.yaml" [("a", NStr "x"); ("b", NStr "")]
    ["a"; "b"]
  = Raise (MissingRequiredVars ["b"] "config.yaml" ["a"; "b"]).
Proof.
  exact (proj1 (required_vars_are_aggregated "config.yaml"
                  [("a", NStr "x"); ("b", NStr "")] ["a"; "b"])).
Defined.

(* ================================================================== *)
(** * The validator on the loaded context *)

(** C6, as amended. The validator collects the keys of the mapping it is
    given and of every mapping reached through values of mappings; it does
    not look into sequences. It passes when none of the collected keys has
    a dash; when one has, it fails with [InvalidKeyNames], and the names
    listed are the collected keys that have a dash, once per occurrence,
    sorted. *)
Theorem key_names_checked_through_mappings d :
  (forall key,
     In key (get_all_nested_keys [] (NMap d)) <-> nested_key key (NMap d)) /\
  ((forall key, nested_key key (NMap d) -> has_dash key = false) ->
   validate_dashes (NMap d) = Ok tt) /\
  ((exists key, nested_key key (NMap d) /\ has_dash key = true) ->
   exists names,
     validate_dashes (NMap d) = Raise (InvalidKeyNames names) /\
     Sorted string_le names /\
     Permutation names (filter has_dash (get_all_nested_keys [] (NMap d))) /\
     forall key,
       In key names <-> nested_key key (NMap d) /\ has_dash key = true) /\
  (forall environ strict common_name file load_yaml fuel section h context,
     fst (load_context_section environ strict common_name file load_yaml
            fuel section h) = Ok context ->
     validate_dashes context = Ok tt).
Proof.
  assert (Hkeys : forall key,
    In key (get_all_nested_keys [] (NMap d)) <-> nested_key key (NMap d)).
  { intros key. split;
      [apply collected_nested_key | apply nested_key_collected]. }
  split; [exact Hkeys|]. rewrite validate_dashes_map.
  split; [|split; [|intros; eapply loaded_context_is_validated; eassumption]].
  - intros H.
    destruct (filter has_dash (get_all_nested_keys [] (NMap d)))
      as [|name names] eqn:E; [reflexivity|].
    assert (Hin : In name (filter has_dash
                             (get_all_nested_keys [] (NMap d)))).
    { rewrite E. now left. }
    apply filter_In in Hin as [Hin Hd]. apply Hkeys in Hin.
    rewrite (H name Hin) in Hd. discriminate.
  - intros (key & Hk & Hd).
    assert (Hin : In key (filter has_dash
                            (get_all_nested_keys [] (NMap d)))).
    { apply filter_In. split; [now apply Hkeys | exact Hd]. }
    destruct (filter has_dash (get_all_nested_keys [] (NMap d)))
      as [|name names] eqn:E; [now elim Hin|].
    exists (sorted (name :: names)).
    split; [reflexivity|]. split; [apply sorted_sorted|].
    split; [apply sorted_perm|].
    intros k. rewrite <- Hkeys, <- filter_In, E.
    split; intros Hk'.
    + now apply (Permutation_in _ (sorted_perm (name :: names))).
    + now apply (Permutation_in _ (Permutation_sym
                                      (sorted_perm (name :: names)))).
Qed.

(** The claim C6 as it stands fails: a key with a dash in a mapping that is
    an item of a sequence is not collected, and the validator passes. *)
Lemma dashed_key_in_sequence_passes :
  any_key "my-var" Sample.dashed_in_sequence
  /\ has_dash "my-var" = true
  /\ get_all_nested_keys [] Sample.dashed_in_sequence = ["templates"]
  /\ validate_dashes Sample.dashed_in_sequence = Ok tt.
Proof.
  split; [|repeat split].
  apply any_key_in_map with "templates" (NSeq [NMap [("my-var", NInt 1)]]);
    [now left|].
  apply any_key_in_seq with (NMap [("my-var", NInt 1)]); [now left|].
  apply any_key_here with (NInt 1). now left.
Qed.

Lemma key_names_checked_through_mappings_witness :
  validate_dashes (NMap [("good", NInt 1); ("my-var", NInt 2)])
  = Raise (InvalidKeyNames ["my-var"])
  /\ validate_dashes (NMap [("good", NInt 1)]) = Ok tt.
Proof.
  split.
  - destruct (key_names_checked_through_mappings
                [("good", NInt 1); ("my-var", NInt 2)]) as (_ & _ & H & _).
    destruct H as (names & Hv & _).
    + exists "my-var". split; [|reflexivity].
      apply nested_key_here with (NInt 2). right. now left.
    + reflexivity.
  - apply (key_names_checked_through_mappings [("good", NInt 1)]).
    intros key H. inversion H as [d v Hin | d k v Hin Hv]; subst.
    + destruct Hin as [E|[]]. now inversion E.
    + destruct Hin as [E|[]]. inversion E; subst. inversion Hv.
Defined.

(* ================================================================== *)
(** * Further properties of the resolution *)

Lemma set_fresh out key v :
  Dict.mem key out = false -> Dict.set out key v = (out ++ [(key, v)])%list.
Proof.
  unfold Dict.mem. induction out as [|[k u] out IH]; simpl; [reflexivity|].
  destruct (k =? key); [discriminate|]. intros H. now rewrite IH.
Qed.

Lemma mem_app key d1 d2 :
  Dict.mem key (d1 ++ d2)%list = Dict.mem key d1 || Dict.mem key d2.
Proof.
  unfold Dict.mem. rewrite get_app. now destruct (Dict.get d1 key).
Qed.

Lemma mem_str_in x l : mem_str x l = true <-> In x l.
Proof.
  unfold mem_str. rewrite existsb_exists. split.
  - intros (y & Hin & Hy). apply String.eqb_eq in Hy. now subst.
  - intros H. exists x. split; [exact H | apply String.eqb_refl].
Qed.

Lemma mem_keys key d : Dict.mem key d = mem_str key (map fst d).
Proof.
  unfold Dict.mem. induction d as [|[k v] d IH]; simpl; [reflexivity|].
  rewrite (String.eqb_sym key k). now destruct (k =? key).
Qed.

Lemma pure_items_shape g d : forall out o,
  nodupb (map fst d) = true ->
  (forall key, In key (map fst d) -> Dict.mem key out = false) ->
  pure_items g d out = Ok o ->
  exists d', o = (out ++ d')%list /\ map fst d' = map fst d /\
             Forall2 (fun x y => g x = Ok y) (map snd d) (map snd d').
Proof.
  induction d as [|[key value] d IH]; simpl; intros out o Hnd Hout H.
  - inversion H; subst. exists []. rewrite app_nil_r. repeat split.
    constructor.
  - apply andb_true_iff in Hnd as [Hkey Hnd]. apply negb_true_iff in Hkey.
    destruct (g value) as [v|e|] eqn:E; simpl in H; try discriminate.
    rewrite set_fresh in H by (apply Hout; now left).
    assert (Hout' : forall k, In k (map fst d) ->
                          Dict.mem k (out ++ [(key, v)])%list = false).
    { intros k Hin. rewrite mem_app, (Hout k (or_intror Hin)). simpl.
      unfold Dict.mem. simpl.
      destruct (String.eqb_spec key k) as [->|]; [|reflexivity].
      apply mem_str_in in Hin. congruence. }
    destruct (IH _ _ Hnd Hout' H) as (d' & -> & Hk & Hv).
    exists ((key, v) :: d'). rewrite <- app_assoc. simpl.
    repeat split; [now rewrite Hk | now constructor].
Qed.

Lemma pure_values_shape g l : forall out o,
  pure_values g l out = Ok o ->
  exists l', o = (out ++ l')%list /\ Forall2 (fun x y => g x = Ok y) l l'.
Proof.
  induction l as [|value l IH]; simpl; intros out o H.
  - inversion H; subst. exists []. rewrite app_nil_r. split; constructor.
  - destruct (g value) as [v|e|] eqn:E; simpl in H; try discriminate.
    destruct (IH _ _ H) as (l' & -> & Hv).
    exists (v :: l'). rewrite <- app_assoc. split; [reflexivity|].
    now constructor.
Qed.

Lemma pure_items_ok_all g d : forall out o,
  pure_items g d out = Ok o ->
  forall v, In v (map snd d) -> exists y, g v = Ok y.
Proof.
  induction d as [|[key value] d IH]; simpl; intros out o H v Hin;
    [now elim Hin|].
  destruct (g value) as [y|e|] eqn:E; simpl in H; try discriminate.
  destruct Hin as [<-|Hin]; [now exists y | exact (IH _ _ H v Hin)].
Qed.

Lemma pure_values_ok_all g l : forall out o,
  pure_values g l out = Ok o ->
  forall v, In v l -> exists y, g v = Ok y.
Proof.
  induction l as [|value l IH]; simpl; intros out o H v Hin;
    [now elim Hin|].
  destruct (g value) as [y|e|] eqn:E; simpl in H; try discriminate.
  destruct Hin as [<-|Hin]; [now exists y | exact (IH _ _ H v Hin)].
Qed.

Lemma pure_items_raise_at g e x post : forall pre d out,
  map snd d = (pre ++ x :: post)%list ->
  (forall v, In v pre -> exists y, g v = Ok y) ->
  g x = Raise e -> pure_items g d out = Raise e.
Proof.
  induction pre as [|p pre IH]; intros [|[key value] d] out Hd Hpre Hx;
    try discriminate; simpl in *; inversion Hd; subst.
  - now rewrite Hx.
  - destruct (Hpre p (or_introl eq_refl)) as (y & ->). simpl.
    apply IH; auto.
Qed.

Lemma pure_values_raise_at g e x post : forall pre out,
  (forall v, In v pre -> exists y, g v = Ok y) ->
  g x = Raise e -> pure_values g (pre ++ x :: post)%list out = Raise e.
Proof.
  induction pre as [|p pre IH]; intros out Hpre Hx; simpl.
  - now rewrite Hx.
  - destruct (Hpre p (or_introl eq_refl)) as (y & ->). simpl.
    apply IH; [|exact Hx]. intros v Hv. apply Hpre. now right.
Qed.

Lemma pure_items_id g d : forall out,
  nodupb (map fst d) = true ->
  (forall key, In key (map fst d) -> Dict.mem key out = false) ->
  (forall v, In v (map snd d) -> g v = Ok v) ->
  pure_items g d out = Ok (out ++ d)%list.
Proof.
  induction d as [|[key value] d IH]; simpl; intros out Hnd Hout Hg.
  - now rewrite app_nil_r.
  - apply andb_true_iff in Hnd as [Hkey Hnd]. apply negb_true_iff in Hkey.
    rewrite (Hg value) by now left. simpl.
    rewrite set_fresh by (apply Hout; now left).
    rewrite IH; auto.
    + now rewrite <- app_assoc.
    + intros k Hin. rewrite mem_app, (Hout k (or_intror Hin)). simpl.
      unfold Dict.mem. simpl.
      destruct (String.eqb_spec key k) as [->|]; [|reflexivity].
      apply mem_str_in in Hin. congruence.
Qed.

Lemma pure_values_id g l : forall out,
  (forall v, In v l -> g v = Ok v) ->
  pure_values g l out = Ok (out ++ l)%list.
Proof.
  induction l as [|value l IH]; simpl; intros out Hg.
  - now rewrite app_nil_r.
  - rewrite (Hg value) by now left. simpl. rewrite IH by auto.
    now rewrite <- app_assoc.
Qed.

Lemma INCLUDE_RE_no_brace s : no_brace s = true -> INCLUDE_RE s = None.
Proof.
  intros H. unfold INCLUDE_RE. now rewrite lit_brace_no_brace.
Qed.

Lemma no_brace_suffix p : forall s r,
  s = p ++ r -> no_brace s = true -> no_brace r = true.
Proof.
  intros s r -> H. unfold no_brace in *. rewrite no_char_app in H.
  now apply andb_true_iff in H.
Qed.

Lemma CUSTOM_ENV_RE_no_brace s : no_brace s = true -> CUSTOM_ENV_RE s = None.
Proof.
  intros H. apply CUSTOM_ENV_RE_none. intros p' r' E.
  apply env_marker_at_needs_braces, lit_brace_no_brace.
  exact (no_brace_suffix p' s r' E H).
Qed.

Lemma forallb_values (f : node -> bool) (d : dict) :
  forallb (fun '(_, x) => f x) d = forallb f (map snd d).
Proof.
  induction d as [|[k x] d IH]; simpl; [reflexivity | now rewrite IH].
Qed.

Lemma depth_values (d : dict) :
  map (fun '(_, x) => depth x) d = map depth (map snd d).
Proof. rewrite map_map. apply map_ext. now intros [k x]. Qed.

Lemma list_max_ge x l : In x l -> x <= list_max l.
Proof.
  intros H. assert (Hl := proj1 (list_max_le l (list_max l)) (Nat.le_refl _)).
  rewrite Forall_forall in Hl. now apply Hl.
Qed.

Lemma env_here_none s : env_here s = None -> env_marker_at s = None.
Proof.
  unfold env_here. now destruct (env_marker_at s) as [[e q]|].
Qed.

Lemma CUSTOM_ENV_RE_none_inv r :
  CUSTOM_ENV_RE r = None ->
  forall p' r', r = p' ++ r' -> no_newline p' = true ->
                env_marker_at r' = None.
Proof.
  induction r as [|c r IH]; intros H p' r' E Hp.
  - destruct p'; [|discriminate]. simpl in E. now subst r'.
  - rewrite CUSTOM_ENV_RE_cons in H.
    assert (Hhere : env_here (String c r) = None -> env_marker_at r' = None
                    \/ exists p'', p' = String c p'').
    { intros Hh. destruct p' as [|a p'']; simpl in E.
      - left. subst r'. now apply env_here_none.
      - right. inversion E; subst. now exists p''. }
    destruct (Re.is_dot c) eqn:Hc.
    + destruct (CUSTOM_ENV_RE r) as [[[p0 e0] q0]|] eqn:Er; [discriminate|].
      destruct (Hhere H) as [Hn|(p'' & ->)]; [exact Hn|].
      simpl in E. inversion E; subst.
      apply andb_true_iff in Hp as [_ Hp]. now apply (IH eq_refl p'' r').
    + destruct (Hhere H) as [Hn|(p'' & ->)]; [exact Hn|].
      simpl in E. inversion E; subst.
      apply andb_true_iff in Hp as [Ha _]. unfold Re.is_dot in Hc.
      fold Re.newline in Ha. rewrite Ha in Hc. discriminate.
Qed.

Section MoreGrammar.

Variable environ : string -> option string.
Variable GET_ENVIRON_STRICT : bool.
Variable load_yaml : string -> option node.

Local Abbreviation process :=
  (_process_variable environ GET_ENVIRON_STRICT load_yaml).

(** X1. A string without an opening brace is a literal: whatever the
    environment, the mode and the files, [_process_variable] returns it as
    it is. *)
Theorem string_without_brace_is_literal s :
  no_brace s = true -> process s = Ok (NStr s).
Proof.
  intros H. unfold _process_variable.
  rewrite INCLUDE_RE_no_brace by exact H.
  now rewrite CUSTOM_ENV_RE_no_brace.
Qed.

(** X2. What the environment grammar changes in a string. When a string
    that does not begin with a file-include marker becomes the string [t],
    either [t] is the string itself, or the string is a prefix, an
    environment marker and a postfix, both on one line, with at most one
    line break after the postfix, and [t] is the prefix, the value of the
    variable (nothing when it is unset) and the postfix: the line break
    that ended the string is gone. *)
Theorem env_grammar_replaces_one_marker s t :
  INCLUDE_RE s = None -> process s = Ok (NStr t) ->
  t = s \/
  exists prefix w1 w2 w3 w4 E postfix,
    all_ws w1 = true /\ all_ws w2 = true /\ all_ws w3 = true /\
    all_ws w4 = true /\ no_quote E = true /\
    no_newline prefix = true /\ no_newline postfix = true /\
    (s = prefix ++ env_marker w1 w2 w3 w4 E ++ postfix \/
     s = prefix ++ env_marker w1 w2 w3 w4 E ++ postfix
         ++ String Re.newline "") /\
    t = prefix ++ match environ E with Some value => value | None => "" end
        ++ postfix.
Proof.
  intros Hinc H. unfold _process_variable in H. rewrite Hinc in H.
  destruct (CUSTOM_ENV_RE s) as [[[p e] q]|] eqn:Ec;
    [|left; now inversion H].
  right. apply CUSTOM_ENV_RE_sound in Ec as (r & Hp & -> & Hr).
  apply env_marker_at_sound in Hr
    as (w1 & w2 & w3 & w4 & H1 & H2 & H3 & H4 & He & Hq & Hs).
  exists p, w1, w2, w3, w4, e, q. repeat (split; [assumption|]).
  split.
  - destruct Hs as [-> | ->]; [now left | now right].
  - destruct (environ e) as [value|]; [now inversion H|].
    destruct GET_ENVIRON_STRICT; [discriminate | now inversion H].
Qed.

End MoreGrammar.

(** X3. The marker that [CUSTOM_ENV_RE] matches is the last one that can
    be matched: no environment marker followed by a one-line postfix
    begins after a longer prefix that has no line break. *)
Theorem env_marker_matched_is_last s : forall prefix env postfix,
  CUSTOM_ENV_RE s = Some (prefix, env, postfix) ->
  forall p' r', s = p' ++ r' -> no_newline p' = true ->
                String.length prefix < String.length p' ->
                env_marker_at r' = None.
Proof.
  induction s as [|c s IH]; intros p e q H p' r' E Hp Hlen.
  - rewrite CUSTOM_ENV_RE_nil in H. discriminate.
  - rewrite CUSTOM_ENV_RE_cons in H.
    destruct p' as [|a p'']; [simpl in Hlen; lia|].
    simpl in E. inversion E; subst a s.
    apply andb_true_iff in Hp as [Ha Hp]. fold Re.newline in Ha.
    unfold Re.is_dot in H. rewrite Ha in H.
    destruct (CUSTOM_ENV_RE (p'' ++ r')) as [[[p0 e0] q0]|] eqn:Er.
    + inversion H; subst. simpl in Hlen.
      apply (IH p0 e q eq_refl p'' r' eq_refl Hp). lia.
    + now apply (CUSTOM_ENV_RE_none_inv (p'' ++ r') Er p'' r').
Qed.

Lemma string_without_brace_is_literal_witness :
  _process_variable Sample.some_environ true Sample.vars_files "nginx:1.21"
  = Ok (NStr "nginx:1.21").
Proof.
  apply (string_without_brace_is_literal Sample.some_environ true
           Sample.vars_files "nginx:1.21").
  reflexivity.
Defined.

Lemma env_grammar_replaces_one_marker_witness :
  "/root" = String Re.newline "" \/
  exists prefix w1 w2 w3 w4 E postfix,
    all_ws w1 = true /\ all_ws w2 = true /\ all_ws w3 = true /\
    all_ws w4 = true /\ no_quote E = true /\
    no_newline prefix = true /\ no_newline postfix = true /\
    ("{{env='HOME'}}" ++ String Re.newline ""
     = prefix ++ env_marker w1 w2 w3 w4 E ++ postfix \/
     "{{env='HOME'}}" ++ String Re.newline ""
     = prefix ++ env_marker w1 w2 w3 w4 E ++ postfix
       ++ String Re.newline "") /\
    "/root" = prefix ++ match Sample.some_environ E with
                        | Some value => value
                        | None => ""
                        end ++ postfix.
Proof.
  destruct (env_grammar_replaces_one_marker Sample.some_environ false
              Sample.no_files ("{{env='HOME'}}" ++ String Re.newline "")
              "/root" eq_refl eq_refl) as [H|H].
  - discriminate.
  - right. exact H.
Defined.

Lemma env_marker_matched_is_last_witness :
  env_marker_at "{env='B'}} and {{env='C'}" = None.
Proof.
  apply (env_marker_matched_is_last "{{env='A'}}{{env='B'}} and {{env='C'}"
           "{{env='A'}}" "B" " and {{env='C'}" eq_refl
           "{{env='A'}}{" "{env='B'}} and {{env='C'}");
    [reflexivity | reflexivity | simpl; lia].
Defined.

Section MoreResolution.

Variable environ : string -> option string.
Variable GET_ENVIRON_STRICT : bool.
Variable load_yaml : string -> option node.

Local Abbreviation process :=
  (_process_variable environ GET_ENVIRON_STRICT load_yaml).
Local Abbreviation update :=
  (_update_context_recursively environ GET_ENVIRON_STRICT load_yaml).
Local Abbreviation update_single :=
  (_update_single_variable environ GET_ENVIRON_STRICT load_yaml).
Local Abbreviation item :=
  (update_item environ GET_ENVIRON_STRICT load_yaml).
Local Abbreviation resolve_ :=
  (resolve environ GET_ENVIRON_STRICT load_yaml).
Local Abbreviation resolve_single_ :=
  (resolve_single environ GET_ENVIRON_STRICT load_yaml).
Local Abbreviation resolve_item_ :=
  (resolve_item environ GET_ENVIRON_STRICT load_yaml).

Lemma update_single_fst fuel value r history h :
  sees r history h ->
  fst (update_single fuel value r h) = resolve_single_ fuel value history.
Proof.
  intros H.
  destruct (update_single_refines environ GET_ENVIRON_STRICT load_yaml fuel
              (update_refines_resolve environ GET_ENVIRON_STRICT load_yaml
                 fuel) value r history h H) as (ext & ->).
  reflexivity.
Qed.

Lemma sees_own r h : heap_ok h -> r < List.length h -> sees r (nth r h []) h.
Proof. intros Hok Hr. now repeat split. Qed.

Lemma bind_ok_inv {A B} (m : outcome A) (f : A -> B) b :
  bind m (fun a => Ok (f a)) = Ok b -> exists a, m = Ok a /\ b = f a.
Proof.
  destruct m as [a|e|]; simpl; intros H; try discriminate.
  inversion H. now exists a.
Qed.

Lemma bind_ok_raise {A B} (m : outcome A) (f : A -> B) e :
  bind m (fun a => Ok (f a)) = Raise e -> m = Raise e.
Proof. destruct m as [a|e'|]; simpl; intros H; congruence. Qed.

(** X4. The result has the shape of the context. When the resolution of a
    tree with distinct keys returns, a mapping has become a mapping with
    the same keys in the same order, a sequence a sequence of the same
    length, each value or item being the result of the resolution of the
    one at its place; anything else is returned as it is. *)
Theorem resolution_keeps_shape fuel context r h v :
  heap_ok h -> r < List.length h -> well_formed context = true ->
  fst (update (S fuel) context r h) = Ok v ->
  same_shape (fun x y => fst (item fuel r x h) = Ok y) context v.
Proof.
  intros Hok Hr Hwf H. assert (Hs := sees_own r h Hok Hr).
  rewrite (update_fst environ GET_ENVIRON_STRICT load_yaml _ _ _ _ _ Hs),
    resolve_S in H.
  assert (Himpl : forall l o,
    Forall2 (fun x y => resolve_item_ fuel (nth r h []) x = Ok y) l o ->
    Forall2 (fun x y => fst (item fuel r x h) = Ok y) l o).
  { intros l o HF. induction HF; constructor; [|assumption].
    now rewrite (update_item_fst environ GET_ENVIRON_STRICT load_yaml
                   _ _ _ _ _ Hs). }
  destruct context as [| b | z | s | l | d]; simpl;
    try (now inversion H).
  - apply bind_ok_inv in H as (o & Ho & ->).
    apply pure_values_shape in Ho as (l' & -> & HF).
    exists l'. split; [reflexivity | now apply Himpl].
  - apply bind_ok_inv in H as (o & Ho & ->).
    simpl in Hwf. apply andb_true_iff in Hwf as [Hnd _].
    apply pure_items_shape in Ho as (d' & -> & Hk & HF);
      [|exact Hnd | reflexivity].
    exists d'. split; [reflexivity|]. split; [exact Hk | now apply Himpl].
Qed.

Lemma resolve_brace_free context :
  well_formed context = true -> brace_free context = true ->
  forall fuel, depth context <= fuel -> resolve_ fuel context [] = Ok context.
Proof.
  assert (Hitem : forall f v,
    (well_formed v = true -> brace_free v = true ->
     forall fuel, depth v <= fuel -> resolve_ fuel v [] = Ok v) ->
    well_formed v = true -> brace_free v = true -> depth v <= f ->
    resolve_item_ f [] v = Ok v).
  { intros f v IH Hwf Hbf Hd.
    destruct v as [| b | z | s | l | d]; try (now apply IH).
    unfold resolve_item, resolve_single. cbn [mem_str existsb].
    unfold _process_variable.
    rewrite INCLUDE_RE_no_brace, CUSTOM_ENV_RE_no_brace by exact Hbf.
    cbn [bind]. destruct f; [simpl in Hd; lia | reflexivity]. }
  induction context as [| | | |l IH|d IH] using node_induction;
    intros Hwf Hbf [|fuel] Hd; try (simpl in Hd; lia); try reflexivity.
  - rewrite resolve_S, pure_values_id; [reflexivity|].
    intros v Hin. rewrite Forall_forall in IH.
    simpl in Hwf, Hbf. rewrite forallb_forall in Hwf, Hbf.
    apply Hitem; auto.
    simpl in Hd. apply le_S_n in Hd.
    apply Nat.le_trans with (2 := Hd). apply list_max_ge. now apply in_map.
  - simpl in Hwf, Hbf. apply andb_true_iff in Hwf as [Hnd Hwf].
    rewrite forallb_values, forallb_forall in Hwf, Hbf.
    rewrite resolve_S, pure_items_id; [reflexivity | exact Hnd | reflexivity|].
    intros v Hin. rewrite Forall_forall in IH. apply Hitem; auto.
    simpl in Hd. apply le_S_n in Hd. rewrite depth_values in Hd.
    apply Nat.le_trans with (2 := Hd). apply list_max_ge. now apply in_map.
Qed.

(** X5. A tree without markers is a fixed point. When the keys of every
    mapping are distinct, no string has an opening brace and the fuel
    covers the depth of the tree, the resolution called as
    [load_context_section] calls it returns the tree unchanged. *)
Theorem tree_without_braces_is_unchanged fuel context h :
  heap_ok h -> well_formed context = true -> brace_free context = true ->
  depth context <= fuel ->
  fst (update fuel context default_history h) = Ok context.
Proof.
  intros Hok Hwf Hbf Hd.
  rewrite (update_fst environ GET_ENVIRON_STRICT load_yaml fuel context
             default_history [] h (sees_default h Hok)).
  now apply resolve_brace_free.
Qed.

Lemma process_raises s e :
  process s = Raise e ->
  (exists path, e = InvalidYamlError path /\ load_yaml path = None) \/
  (exists name, e = MissingEnvVarStrict name /\
                GET_ENVIRON_STRICT = true /\ environ name = None).
Proof.
  unfold _process_variable, load_yaml_or_raise.
  destruct (INCLUDE_RE s) as [file|].
  - destruct (load_yaml file) eqn:E; [discriminate|].
    intros H. inversion H. left. now exists file.
  - destruct (CUSTOM_ENV_RE s) as [[[p n] q]|]; [|discriminate].
    destruct (environ n) eqn:En; [discriminate|].
    destruct GET_ENVIRON_STRICT; [|discriminate].
    intros H. inversion H. right. now exists n.
Qed.

Lemma resolve_raises fuel : forall context history e,
  resolve_ fuel context history = Raise e ->
  e = InfiniteIncludeLoop \/
  (exists path, e = InvalidYamlError path /\ load_yaml path = None) \/
  (exists name, e = MissingEnvVarStrict name /\
                GET_ENVIRON_STRICT = true /\ environ name = None).
Proof.
  induction fuel as [|fuel IH]; intros context history e H;
    [discriminate|].
  assert (Hitem : forall v, resolve_item_ fuel history v = Raise e ->
    e = InfiniteIncludeLoop \/
    (exists path, e = InvalidYamlError path /\ load_yaml path = None) \/
    (exists name, e = MissingEnvVarStrict name /\
                  GET_ENVIRON_STRICT = true /\ environ name = None)).
  { intros v Hv. destruct v as [| b | z | s | l | d];
      try (now apply (IH _ _ _ Hv)).
    unfold resolve_item, resolve_single in Hv.
    destruct (mem_str s history); [left; now inversion Hv|].
    destruct (process s) as [w|e'|] eqn:Ep; simpl in Hv.
    - now apply (IH _ _ _ Hv).
    - inversion Hv; subst. right. now apply process_raises with s.
    - discriminate. }
  rewrite resolve_S in H.
  destruct context as [| b | z | s | l | d]; try discriminate.
  - apply bind_ok_raise, pure_values_raise in H as (v & _ & Hv).
    exact (Hitem v Hv).
  - apply bind_ok_raise, pure_items_raise in H as (v & _ & Hv).
    exact (Hitem v Hv).
Qed.

Lemma resolve_rejects fuel context history s pre post :
  mem_str s history = true ->
  children context = (pre ++ NStr s :: post)%list ->
  (forall x, In x pre -> exists y, resolve_item_ fuel history x = Ok y) ->
  resolve_ (S fuel) context history = Raise InfiniteIncludeLoop.
Proof.
  intros Hmem Hc Hpre.
  assert (Hs : resolve_item_ fuel history (NStr s)
               = Raise InfiniteIncludeLoop).
  { unfold resolve_item, resolve_single. now rewrite Hmem. }
  rewrite resolve_S.
  destruct context as [| b | z | s' | l | d]; simpl in Hc;
    try (now destruct pre).
  - subst l. now rewrite (pure_values_raise_at _ _ _ _ _ _ Hpre Hs).
  - now rewrite (pure_items_raise_at _ _ _ _ _ _ _ Hc Hpre Hs).
Qed.

(** X7. A value that is in the history is never resolved. A mapping or a
    sequence that has, among its values or items, a string of the history
    it is resolved against does not return, whatever the fuel; and when
    the values before that string resolve, the call raises
    [InfiniteIncludeLoop]. *)
Theorem value_in_history_is_rejected fuel context r h s :
  heap_ok h -> r < List.length h ->
  mem_str s (nth r h []) = true -> In (NStr s) (children context) ->
  (forall fuel' v, fst (update fuel' context r h) <> Ok v) /\
  (forall pre post,
     children context = (pre ++ NStr s :: post)%list ->
     (forall x, In x pre -> exists y, fst (item fuel r x h) = Ok y) ->
     fst (update (S fuel) context r h) = Raise InfiniteIncludeLoop).
Proof.
  intros Hok Hr Hmem Hin. assert (Hs := sees_own r h Hok Hr). split.
  - intros fuel' v.
    rewrite (update_fst environ GET_ENVIRON_STRICT load_yaml _ _ _ _ _ Hs).
    destruct fuel' as [|fuel']; [discriminate|]. rewrite resolve_S.
    assert (Hno : forall y,
      resolve_item_ fuel' (nth r h []) (NStr s) <> Ok y).
    { intros y. unfold resolve_item, resolve_single. now rewrite Hmem. }
    destruct context as [| b | z | s' | l | d]; simpl in Hin;
      try (now elim Hin).
    + intros H. apply bind_ok_inv in H as (o & Ho & _).
      destruct (pure_values_ok_all _ _ _ _ Ho _ Hin) as (y & Hy).
      now elim (Hno y).
    + intros H. apply bind_ok_inv in H as (o & Ho & _).
      destruct (pure_items_ok_all _ _ _ _ Ho _ Hin) as (y & Hy).
      now elim (Hno y).
  - intros pre post Hc Hpre.
    rewrite (update_fst environ GET_ENVIRON_STRICT load_yaml _ _ _ _ _ Hs).
    apply resolve_rejects with s pre post; [exact Hmem | exact Hc|].
    intros x Hx. destruct (Hpre x Hx) as (y & Hy). exists y.
    now rewrite <- (update_item_fst environ GET_ENVIRON_STRICT load_yaml
                      _ _ _ _ _ Hs).
Qed.

(** X8. A file that includes itself from the first value of its top
    mapping, or the first item of its top sequence, with the marker it was
    included by, is rejected: the resolution of that marker raises
    [InfiniteIncludeLoop]. *)
Theorem leading_self_include_is_rejected fuel marker file v post r h :
  heap_ok h -> r < List.length h ->
  mem_str marker (nth r h []) = false ->
  INCLUDE_RE marker = Some file -> load_yaml file = Some v ->
  children v = NStr marker :: post ->
  fst (update_single (S fuel) marker r h) = Raise InfiniteIncludeLoop.
Proof.
  intros Hok Hr Hmem Hinc Hload Hc.
  rewrite (update_single_fst _ _ _ _ _ (sees_own r h Hok Hr)).
  unfold resolve_single. rewrite Hmem.
  unfold _process_variable, load_yaml_or_raise. rewrite Hinc, Hload.
  cbn [bind]. apply resolve_rejects with marker [] post.
  - apply mem_str_in, in_or_app. right. now left.
  - exact Hc.
  - intros x [].
Qed.

End MoreResolution.

(* ================================================================== *)
(** * Further properties of [load_context_section] *)

Lemma mem_set key k out v :
  Dict.mem key (Dict.set out k v) = String.eqb k key || Dict.mem key out.
Proof.
  unfold Dict.mem. induction out as [|[k' u] out IH]; simpl.
  - now destruct (k =? key).
  - destruct (String.eqb_spec k' k) as [->|Hne]; simpl.
    + now destruct (k =? key).
    + destruct (String.eqb_spec k' key) as [->|Hne'].
      * now destruct (k =? key).
      * exact IH.
Qed.

Lemma for_items_mem f d : forall out h o h' key,
  for_items f d out h = (Ok o, h') ->
  Dict.mem key o = Dict.mem key out || mem_str key (map fst d).
Proof.
  induction d as [|[k value] d IH]; simpl; intros out h o h' key H.
  - inversion H. now rewrite orb_false_r.
  - unfold mbind in H. destruct (f value h) as [[v|e|] h1]; try discriminate.
    rewrite (IH _ _ _ _ key H), mem_set. rewrite (String.eqb_sym key k).
    now destruct (k =? key), (Dict.mem key out).
Qed.

Section MoreLoader.

Variable environ : string -> option string.
Variable GET_ENVIRON_STRICT : bool.
Variable COMMON_SECTION_NAME : string.
Variable CONFIG_FILE : string.
Variable load_yaml : string -> option node.

Local Abbreviation load :=
  (load_context_section environ GET_ENVIRON_STRICT COMMON_SECTION_NAME
     CONFIG_FILE load_yaml).
Local Abbreviation update :=
  (_update_context_recursively environ GET_ENVIRON_STRICT load_yaml).

Lemma update_map_result fuel d r h v h' :
  update fuel (NMap d) r h = (Ok v, h') ->
  exists o, v = NMap o /\
            forall key, Dict.mem key o = mem_str key (map fst d).
Proof.
  destruct fuel as [|fuel]; [discriminate|]. rewrite update_S.
  unfold mbind.
  destruct (for_items _ d [] h) as [[o|e|] h1] eqn:E; try discriminate.
  intros H. inversion H; subst. exists o. split; [reflexivity|].
  intros key. now rewrite (for_items_mem _ _ _ _ _ _ key E).
Qed.

(** X9. A context that [load_context_section] returns is a mapping that
    has the key [templates] or the key [kubectl]. *)
Theorem loaded_context_is_deployable fuel section h context :
  fst (load_context_section environ GET_ENVIRON_STRICT COMMON_SECTION_NAME
         CONFIG_FILE load_yaml fuel section h) = Ok context ->
  exists d, context = NMap d /\
            (Dict.mem "templates" d = true \/ Dict.mem "kubectl" d = true).
Proof.
  unfold load_context_section.
  destruct (section =? COMMON_SECTION_NAME); [discriminate|].
  unfold mbind at 1. unfold lift at 1.
  destruct (load_yaml_or_raise load_yaml CONFIG_FILE) as [doc|e|];
    try discriminate.
  destruct doc as [| b | z | s | l | d0]; try discriminate;
    unfold mbind at 1; unfold lift at 1;
    (destruct (if truthy section then _ else _) as [[|]|e|];
     try discriminate);
    unfold mbind at 1; unfold lift at 1;
    (destruct (py_getitem _ "common") as [c|e|] eqn:Ec; try discriminate).
  unfold mbind at 1. unfold lift at 1.
  destruct (py_getitem _ section) as [u|e|]; try discriminate.
  unfold mbind at 1.
  destruct (update fuel _ default_history h) as [[a|e|] h1] eqn:Eu;
    try discriminate.
  apply update_map_result in Eu as (o & -> & _).
  unfold mbind, lift, raise, ret.
  destruct (if truthy section then _ else _) as [present|e|];
    try discriminate.
  assert (Hmap : forall c0,
    (if present
     then bind (py_getitem (NMap o) COMMON_SECTION_NAME)
            (fun base => bind (py_getitem (NMap o) section)
                           (fun overlay => py_merge base overlay))
     else Ok (NMap o)) = Ok c0 -> exists d, c0 = NMap d).
  { intros c0. destruct present; [|intros H; inversion H; now exists o].
    destruct (py_getitem (NMap o) COMMON_SECTION_NAME) as [base|e|];
      cbn [bind]; try discriminate.
    destruct (py_getitem (NMap o) section) as [overlay|e|];
      cbn [bind]; try discriminate.
    unfold py_merge. destruct base; try discriminate.
    destruct overlay; try discriminate.
    intros H. inversion H. eauto. }
  destruct (if present then _ else _) as [c0|e|] eqn:Ec0; try discriminate.
  destruct (Hmap c0 eq_refl) as (d & ->). cbn [bind py_in].
  destruct (Dict.mem "templates" d) eqn:Et; cbn [bind negb].
  - destruct (validate_dashes (NMap d)); try discriminate.
    intros H. inversion H. exists d. auto.
  - destruct (Dict.mem "kubectl" d) eqn:Ek; cbn [bind negb];
      [|discriminate].
    destruct (validate_dashes (NMap d)); try discriminate.
    intros H. inversion H. exists d. auto.
Qed.

(** X10. The empty section name never loads: the reduced document has the
    two keys [common] and the empty string only, it is not merged, and the
    check of [templates] and [kubectl] cannot pass. *)
Theorem empty_section_name_never_loads fuel h context :
  fst (load_context_section environ GET_ENVIRON_STRICT COMMON_SECTION_NAME
         CONFIG_FILE load_yaml fuel "" h) <> Ok context.
Proof.
  unfold load_context_section.
  destruct ("" =? COMMON_SECTION_NAME); [discriminate|].
  unfold mbind at 1. unfold lift at 1.
  destruct (load_yaml_or_raise load_yaml CONFIG_FILE) as [doc|e|];
    try discriminate.
  destruct doc as [| b | z | s | l | d0]; try discriminate;
    unfold mbind at 1; unfold lift at 1; cbn [truthy String.eqb negb];
    unfold mbind at 1; unfold lift at 1;
    (destruct (py_getitem _ "common") as [c|e|] eqn:Ec; try discriminate).
  unfold mbind at 1. unfold lift at 1.
  destruct (py_getitem _ "") as [u|e|]; try discriminate.
  unfold mbind at 1.
  destruct (update fuel _ default_history h) as [[a|e|] h1] eqn:Eu;
    try discriminate.
  apply update_map_result in Eu as (o & -> & Hkeys).
  unfold mbind, lift, raise, ret. cbn [truthy String.eqb negb bind py_in].
  rewrite !Hkeys. discriminate.
Qed.

(** X11. A document that is neither empty nor a mapping never loads: for a
    section other than the reserved one, the call raises [SectionNotFound]
    or the [TypeError] of a lookup in something that is not a mapping. *)
Theorem document_that_is_no_mapping_fails fuel section h doc :
  section <> COMMON_SECTION_NAME ->
  load_yaml CONFIG_FILE = Some doc ->
  doc <> NNull -> (forall d, doc <> NMap d) ->
  fst (load_context_section environ GET_ENVIRON_STRICT COMMON_SECTION_NAME
         CONFIG_FILE load_yaml fuel section h) = Raise TypeError \/
  fst (load_context_section environ GET_ENVIRON_STRICT COMMON_SECTION_NAME
         CONFIG_FILE load_yaml fuel section h)
  = Raise (SectionNotFound section CONFIG_FILE).
Proof.
  intros Hs Hl Hn Hm. unfold load_context_section.
  apply String.eqb_neq in Hs. rewrite Hs.
  unfold mbind, lift, load_yaml_or_raise. rewrite Hl.
  destruct doc as [| b | z | s | l | d]; try (now elim Hn);
    try (now elim (Hm d));
    destruct (truthy section); cbn [py_in py_getitem bind fst]; auto.
  - destruct (substring_of section s); cbn [negb fst]; auto.
  - destruct (existsb (node_is_str section) l); cbn [negb fst]; auto.
Qed.

End MoreLoader.

(* ================================================================== *)
(** * The sections that are not asked for *)

Lemma includes_children context :
  includes context = flat_map includes_of_value (children context).
Proof.
  destruct context as [| b | z | s | l | d]; try reflexivity.
  simpl. induction d as [|[k v] d IH]; simpl; [reflexivity|].
  now rewrite IH.
Qed.

Lemma includes_of_child context v file :
  In v (children context) -> In file (includes_of_value v) ->
  In file (includes context).
Proof.
  intros Hv Hf. rewrite includes_children. apply in_flat_map. now exists v.
Qed.

Lemma reaches_of_child load_yaml context v file :
  In v (children context) -> (forall s, v <> NStr s) ->
  reaches load_yaml v file -> reaches load_yaml context file.
Proof.
  intros Hv Hs H.
  assert (Hinc : forall g, In g (includes v) -> In g (includes context)).
  { intros g Hg. apply includes_of_child with v; [exact Hv|].
    destruct v as [| b | z | s | l | d]; try exact Hg. now elim (Hs s). }
  destruct H as [v g Hg | v g w file Hg Hl Hw].
  - apply reaches_here. auto.
  - apply reaches_through with g w; auto.
Qed.

Lemma string_reaches_nothing load_yaml s file :
  ~ reaches load_yaml (NStr s) file.
Proof. intros H. inversion H; subst; simpl in *; contradiction. Qed.

Lemma pure_items_agree g g' d : forall out,
  (forall v, In v (map snd d) -> g v = g' v) ->
  pure_items g d out = pure_items g' d out.
Proof.
  induction d as [|[key value] d IH]; simpl; intros out H; [reflexivity|].
  rewrite <- (H value) by now left.
  destruct (g value); simpl; auto.
Qed.

Lemma pure_values_agree g g' l : forall out,
  (forall v, In v l -> g v = g' v) ->
  pure_values g l out = pure_values g' l out.
Proof.
  induction l as [|value l IH]; simpl; intros out H; [reflexivity|].
  rewrite <- (H value) by now left.
  destruct (g value); simpl; auto.
Qed.

Lemma mbind_lift {A B} (o : outcome A) (k : A -> M B) h :
  mbind (lift o) k h
  = match o with
    | Ok a => k a h
    | Raise e => (Raise e, h)
    | OutOfFuel => (OutOfFuel, h)
    end.
Proof. unfold mbind, lift. now destruct o. Qed.

(** The end of [load_context_section] does not touch the heap. *)
Lemma finish_section_fst COMMON_SECTION_NAME CONFIG_FILE section a h :
  fst ((present <- lift (if truthy section then py_in section a
                         else Ok false) ;;
        context <- lift (if present : bool
                         then
                           bind (py_getitem a COMMON_SECTION_NAME)
                             (fun base =>
                           bind (py_getitem a section)
                             (fun overlay => py_merge base overlay))
                         else Ok a) ;;
        no_templates <- lift (bind (py_in "templates" context)
                                (fun b => Ok (negb b))) ;;
        no_kubectl <- lift (if no_templates : bool
                            then bind (py_in "kubectl" context)
                                   (fun b => Ok (negb b))
                            else Ok false) ;;
        if no_kubectl : bool
        then raise (MissingTemplatesOrKubectlKey CONFIG_FILE)
        else
          _ <- lift (validate_dashes context) ;;
          ret context) h)
  = finish_section COMMON_SECTION_NAME CONFIG_FILE section a.
Proof.
  unfold finish_section. rewrite mbind_lift.
  destruct (if truthy section then _ else _) as [present|e|];
    cbn [bind]; try reflexivity.
  rewrite mbind_lift.
  destruct (if present then _ else _) as [c0|e|]; cbn [bind];
    try reflexivity.
  rewrite mbind_lift.
  destruct (bind (py_in "templates" c0) _) as [nt|e|]; cbn [bind];
    try reflexivity.
  rewrite mbind_lift.
  destruct (if nt then _ else _) as [[|]|e|]; cbn [bind]; try reflexivity.
  rewrite mbind_lift. now destruct (validate_dashes c0).
Qed.

Section LoadedMapping.

Variable environ : string -> option string.
Variable GET_ENVIRON_STRICT : bool.
Variable COMMON_SECTION_NAME : string.
Variable CONFIG_FILE : string.
Variable load_yaml : string -> option node.

(** [load_context_section] on a document that is a mapping, in terms of
    the resolution of the reduced document *)
Lemma load_mapping fuel section h d :
  heap_ok h -> load_yaml CONFIG_FILE = Some (NMap d) ->
  (section =? COMMON_SECTION_NAME) = false ->
  fst (load_context_section environ GET_ENVIRON_STRICT COMMON_SECTION_NAME
         CONFIG_FILE load_yaml fuel section h)
  = if truthy section && negb (Dict.mem section d)
    then Raise (SectionNotFound section CONFIG_FILE)
    else
      match Dict.get d "common", Dict.get d section with
      | None, _ => Raise (KeyError "common")
      | Some _, None => Raise (KeyError section)
      | Some c, Some u =>
          bind (resolve environ GET_ENVIRON_STRICT load_yaml fuel
                  (NMap (Dict.set (Dict.set [] "common" c) section u)) [])
            (finish_section COMMON_SECTION_NAME CONFIG_FILE section)
      end.
Proof.
  intros Hok Hl Hs. unfold load_context_section. rewrite Hs.
  rewrite mbind_lift. unfold load_yaml_or_raise. rewrite Hl.
  rewrite mbind_lift.
  assert (Ha : (if truthy section
                then bind (py_in section (NMap d)) (fun b => Ok (negb b))
                else Ok false)
               = Ok (truthy section && negb (Dict.mem section d))).
  { now destruct (truthy section). }
  rewrite Ha.
  destruct (truthy section && negb (Dict.mem section d)); [reflexivity|].
  rewrite mbind_lift. cbn [py_getitem].
  destruct (Dict.get d "common") as [c|]; [|reflexivity].
  rewrite mbind_lift.
  destruct (Dict.get d section) as [u|]; [|reflexivity].
  unfold mbind at 1.
  destruct (update_refines_resolve environ GET_ENVIRON_STRICT load_yaml
              fuel (NMap (Dict.set (Dict.set [] "common" c) section u))
              default_history [] h (sees_default h Hok)) as (ext & ->).
  destruct (resolve environ GET_ENVIRON_STRICT load_yaml fuel _ [])
    as [a|e|]; try reflexivity.
  now apply finish_section_fst.
Qed.

End LoadedMapping.

Section OtherSections.

Variable environ : string -> option string.
Variable GET_ENVIRON_STRICT : bool.
Variable COMMON_SECTION_NAME : string.
Variable CONFIG_FILE : string.
(** two sets of files that differ by the configuration file only *)
Variables load_yaml load_yaml' : string -> option node.
Hypothesis Hsame : forall path,
  path <> CONFIG_FILE -> load_yaml path = load_yaml' path.

Lemma resolve_agree fuel : forall context history,
  ~ reaches load_yaml context CONFIG_FILE ->
  resolve environ GET_ENVIRON_STRICT load_yaml fuel context history
  = resolve environ GET_ENVIRON_STRICT load_yaml' fuel context history.
Proof.
  induction fuel as [|fuel IH]; intros context history Hno; [reflexivity|].
  assert (Hitem : forall v, In v (children context) ->
    resolve_item environ GET_ENVIRON_STRICT load_yaml fuel history v
    = resolve_item environ GET_ENVIRON_STRICT load_yaml' fuel history v).
  { intros v Hv.
    destruct v as [| b | z | s | l | d];
      try (apply IH; intros H; apply Hno;
           apply (reaches_of_child load_yaml context _ CONFIG_FILE Hv);
           [discriminate | exact H]).
    unfold resolve_item, resolve_single.
    destruct (mem_str s history); [reflexivity|].
    unfold _process_variable.
    destruct (INCLUDE_RE s) as [file|] eqn:Ei.
    2: { destruct (CUSTOM_ENV_RE s) as [[[p n] q]|];
           [destruct (environ n); [|destruct GET_ENVIRON_STRICT]|];
           cbn [bind]; try reflexivity;
           apply IH, string_reaches_nothing. }
    assert (Hin : In file (includes context)).
    { apply includes_of_child with (NStr s); [exact Hv|].
      simpl. rewrite Ei. now left. }
    assert (Hne : file <> CONFIG_FILE).
    { intros ->. apply Hno. now apply reaches_here. }
    unfold load_yaml_or_raise. rewrite <- (Hsame file Hne).
    destruct (load_yaml file) as [w|] eqn:El; [|reflexivity].
    cbn [bind]. apply IH. intros H. apply Hno.
    now apply reaches_through with file w. }
  rewrite !resolve_S.
  destruct context as [| b | z | s | l | d]; try reflexivity.
  - now rewrite (pure_values_agree _ _ l [] Hitem).
  - now rewrite (pure_items_agree _ _ d [] Hitem).
Qed.

(** X12. The sections that are not asked for play no part. Take two
    documents that are mappings and give the same value to [common] and
    the same value to the requested section, all other files being the
    same. When no include of these two sections leads to the
    configuration file itself, [load_context_section] has the same outcome
    on both: what the other sections hold, markers that cannot be resolved
    included, is never looked at. *)
Theorem other_sections_play_no_part fuel section h d d' :
  heap_ok h ->
  load_yaml CONFIG_FILE = Some (NMap d) ->
  load_yaml' CONFIG_FILE = Some (NMap d') ->
  Dict.get d "common" = Dict.get d' "common" ->
  Dict.get d section = Dict.get d' section ->
  (forall c u, Dict.get d "common" = Some c -> Dict.get d section = Some u ->
     ~ reaches load_yaml
         (NMap (Dict.set (Dict.set [] "common" c) section u)) CONFIG_FILE) ->
  fst (load_context_section environ GET_ENVIRON_STRICT COMMON_SECTION_NAME
         CONFIG_FILE load_yaml fuel section h)
  = fst (load_context_section environ GET_ENVIRON_STRICT COMMON_SECTION_NAME
           CONFIG_FILE load_yaml' fuel section h).
Proof.
  intros Hok Hl Hl' Hc Hs Hno.
  destruct (section =? COMMON_SECTION_NAME) eqn:E.
  - unfold load_context_section. now rewrite E.
  - rewrite (load_mapping environ GET_ENVIRON_STRICT COMMON_SECTION_NAME
               CONFIG_FILE load_yaml fuel section h d Hok Hl E).
    rewrite (load_mapping environ GET_ENVIRON_STRICT COMMON_SECTION_NAME
               CONFIG_FILE load_yaml' fuel section h d' Hok Hl' E).
    unfold Dict.mem. rewrite <- Hc, <- Hs.
    destruct (Dict.get d "common") as [c|] eqn:Ec; [|reflexivity].
    destruct (Dict.get d section) as [u|] eqn:Eu; [|reflexivity].
    now rewrite (resolve_agree fuel _ [] (Hno c u eq_refl eq_refl)).
Qed.

End OtherSections.

(* ================================================================== *)
(** * Further properties of the validators *)

Lemma validate_dashes_ok_iff d :
  validate_dashes (NMap d) = Ok tt <->
  forall key, In key (get_all_nested_keys [] (NMap d)) -> has_dash key = false.
Proof.
  rewrite validate_dashes_map. split.
  - intros H key Hin.
    destruct (has_dash key) eqn:E; [|reflexivity].
    assert (Hf : In key (filter has_dash (get_all_nested_keys [] (NMap d)))).
    { apply filter_In. now split. }
    destruct (filter has_dash (get_all_nested_keys [] (NMap d)));
      [now elim Hf | discriminate].
  - intros H.
    destruct (filter has_dash (get_all_nested_keys [] (NMap d)))
      as [|name names] eqn:E; [reflexivity|].
    assert (Hf : In name (filter has_dash
                            (get_all_nested_keys [] (NMap d)))).
    { rewrite E. now left. }
    apply filter_In in Hf as [Hin Hd]. rewrite (H name Hin) in Hd.
    discriminate.
Qed.

(** X13. The order in which [get_all_nested_keys] collects. What is in
    [result] when it is called stays at the front; the keys of a mapping
    come in the order of the mapping, each one followed at once by the
    keys collected from its value; anything that is not a mapping adds
    nothing. *)
Theorem nested_keys_are_collected_in_order :
  (forall result v,
     get_all_nested_keys result v
     = (result ++ get_all_nested_keys [] v)%list) /\
  (forall d,
     get_all_nested_keys [] (NMap d)
     = flat_map (fun '(key, value) => key :: get_all_nested_keys [] value)
         d) /\
  (forall v, (forall d, v <> NMap d) -> get_all_nested_keys [] v = []).
Proof.
  split; [|split].
  - intros result v. apply get_all_nested_keys_acc.
  - apply get_all_nested_keys_flat.
  - intros v H. destruct v as [| b | z | s | l | d]; try reflexivity.
    now elim (H d).
Qed.

(** X14. The validator passes on a mapping exactly when none of its keys
    has a dash and it passes on each of its values that is a mapping. *)
Theorem validate_dashes_by_levels d :
  validate_dashes (NMap d) = Ok tt <->
  forall key value, In (key, value) d ->
    has_dash key = false /\
    forall d', value = NMap d' -> validate_dashes (NMap d') = Ok tt.
Proof.
  rewrite validate_dashes_ok_iff, get_all_nested_keys_flat. split.
  - intros H key value Hin. split.
    + apply H, in_flat_map. exists (key, value). split; [exact Hin|].
      now left.
    + intros d' ->. apply validate_dashes_ok_iff. intros k Hk.
      apply H, in_flat_map. exists (key, NMap d'). split; [exact Hin|].
      now right.
  - intros H k Hk. apply in_flat_map in Hk as ([key value] & Hin & [<-|Hk]).
    + now apply (H key value Hin).
    + destruct value as [| b | z | s | l | d']; try (now elim Hk).
      destruct (H key (NMap d') Hin) as [_ Hv].
      exact (proj1 (validate_dashes_ok_iff d') (Hv d' eq_refl) k Hk).
Qed.

Lemma missing_vars_filter context_dict : forall names acc,
  fold_left
    (fun missing_vars v =>
       if negb (Dict.mem v context_dict)
          || match Dict.get context_dict v with
             | Some x => is_empty_or_none x
             | None => false
             end
       then (missing_vars ++ [v])%list
       else missing_vars) names acc
  = (acc ++ filter (is_missing context_dict) names)%list.
Proof.
  induction names as [|v names IH]; intros acc; simpl.
  - now rewrite app_nil_r.
  - rewrite IH. unfold is_missing, Dict.mem.
    destruct (Dict.get context_dict v) as [[| | |s| |]|]; simpl;
      try reflexivity; try (now rewrite <- app_assoc).
    destruct (s =? ""); simpl; [now rewrite <- app_assoc | reflexivity].
Qed.

Lemma check_required_vars_ok_iff file context_dict required_vars :
  check_required_vars file context_dict required_vars = Ok tt <->
  filter (is_missing context_dict) required_vars = [].
Proof.
  unfold check_required_vars. rewrite missing_vars_filter. simpl.
  destruct (filter (is_missing context_dict) required_vars); simpl;
    split; congruence.
Qed.

(** X15. Requiring two lists of names at once passes exactly when
    requiring each of them passes; and when the check fails, the names
    reported for the two lists together are the names reported for the
    first followed by the names reported for the second. *)
Theorem required_vars_of_two_lists file context_dict names1 names2 :
  (check_required_vars file context_dict (names1 ++ names2) = Ok tt <->
   check_required_vars file context_dict names1 = Ok tt /\
   check_required_vars file context_dict names2 = Ok tt) /\
  (forall missing required,
     check_required_vars file context_dict (names1 ++ names2)
     = Raise (MissingRequiredVars missing file required) ->
     missing = (filter (is_missing context_dict) names1
                ++ filter (is_missing context_dict) names2)%list /\
     required = (names1 ++ names2)%list).
Proof.
  split.
  - rewrite !check_required_vars_ok_iff, filter_app. split.
    + intros H. now apply app_eq_nil in H.
    + intros [-> ->]. reflexivity.
  - intros missing required. unfold check_required_vars.
    rewrite missing_vars_filter, filter_app. simpl.
    destruct (filter (is_missing context_dict) names1
              ++ filter (is_missing context_dict) names2)%list;
      simpl; [discriminate|].
    intros H. inversion H. now split.
Qed.

(* ================================================================== *)
(** * The arguments of [main] *)

Lemma filter_argument_eq n acc a :
  filter_argument (n, acc) a
  = if mem_str a explicit_true
    then (n + 1, (acc ++ [before_equals a])%list)
    else if mem_str a explicit_false then (n + 1, acc)
    else (n, (acc ++ [a])%list).
Proof. reflexivity. Qed.

Lemma filter_arguments_from argv : forall n acc,
  fold_left filter_argument argv (n, acc)
  = (n + fst (filter_arguments argv),
     (acc ++ snd (filter_arguments argv))%list).
Proof.
  induction argv as [|a argv IH]; intros n acc.
  - simpl. now rewrite Nat.add_0_r, app_nil_r.
  - change (filter_arguments (a :: argv))
      with (fold_left filter_argument argv (filter_argument (0, []) a)).
    cbn [fold_left]. rewrite !filter_argument_eq.
    destruct (mem_str a explicit_true);
      [|destruct (mem_str a explicit_false)];
      rewrite IH; symmetry; rewrite IH; cbn [fst snd];
      rewrite <- ?app_assoc; f_equal; simpl; lia.
Qed.

Lemma filter_arguments_cons a argv :
  filter_arguments (a :: argv)
  = if mem_str a explicit_true
    then (S (fst (filter_arguments argv)),
          before_equals a :: snd (filter_arguments argv))
    else if mem_str a explicit_false
    then (S (fst (filter_arguments argv)), snd (filter_arguments argv))
    else (fst (filter_arguments argv), a :: snd (filter_arguments argv)).
Proof.
  change (filter_arguments (a :: argv))
    with (fold_left filter_argument argv (filter_argument (0, []) a)).
  rewrite filter_argument_eq.
  destruct (mem_str a explicit_true); [|destruct (mem_str a explicit_false)];
    now rewrite filter_arguments_from.
Qed.

Lemma explicit_true_rewritten a :
  mem_str a explicit_true = true ->
  before_equals a = "--sync-mode" \/ before_equals a = "--dry-run".
Proof.
  intros H. apply mem_str_in in H.
  destruct H as [<-|[<-|[<-|[<-|[]]]]]; auto.
Qed.

Lemma kept_argument argv a :
  In a (snd (filter_arguments argv)) ->
  mem_str a explicit_true = false /\ mem_str a explicit_false = false /\
  (In a argv \/ a = "--sync-mode" \/ a = "--dry-run").
Proof.
  induction argv as [|x argv IH]; [now intros []|].
  rewrite filter_arguments_cons.
  destruct (mem_str x explicit_true) eqn:Et;
    [|destruct (mem_str x explicit_false) eqn:Ef]; simpl.
  - intros [<-|H].
    + destruct (explicit_true_rewritten x Et) as [-> | ->];
        repeat split; auto.
    + destruct (IH H) as (H1 & H2 & [H3|H3]); repeat split; auto.
  - intros H. destruct (IH H) as (H1 & H2 & [H3|H3]); repeat split; auto.
  - intros [<-|H].
    + repeat split; auto.
    + destruct (IH H) as (H1 & H2 & [H3|H3]); repeat split; auto.
Qed.

Lemma plain_arguments_kept argv :
  (forall a, In a argv ->
     mem_str a explicit_true = false /\ mem_str a explicit_false = false) ->
  filter_arguments argv = (0, argv).
Proof.
  induction argv as [|x argv IH]; intros H; [reflexivity|].
  rewrite filter_arguments_cons.
  destruct (H x (or_introl eq_refl)) as [-> ->].
  rewrite IH; [reflexivity|]. intros a Ha. apply H. now right.
Qed.

(** X16. After the loop of [main], no explicit [=true] or [=false] form
    of [--sync-mode] or [--dry-run] is left: an argument that is kept is an
    argument that was given and is none of the eight forms, or one of the
    two bare options. So the loop run on its own result changes nothing
    and counts nothing. *)
Theorem filtered_arguments_have_no_explicit_form argv :
  (forall a, In a (snd (filter_arguments argv)) ->
     mem_str a explicit_true = false /\ mem_str a explicit_false = false /\
     (In a argv \/ a = "--sync-mode" \/ a = "--dry-run")) /\
  filter_arguments (snd (filter_arguments argv))
  = (0, snd (filter_arguments argv)).
Proof.
  split; [intros a; apply kept_argument|].
  apply plain_arguments_kept. intros a Ha.
  destruct (kept_argument argv a Ha) as (H1 & H2 & _). now split.
Qed.

(** X17. What the loop counts and what it drops: [deprecation_warnings] is
    the number of arguments that are one of the eight explicit forms, and
    the arguments dropped are the [=false] forms, so that the number of
    arguments kept and of [=false] forms is the number of arguments. *)
Theorem deprecation_warnings_count argv :
  fst (filter_arguments argv)
  = List.length
      (filter (fun a => mem_str a explicit_true || mem_str a explicit_false)
         argv) /\
  List.length (snd (filter_arguments argv))
  + List.length
      (filter (fun a => negb (mem_str a explicit_true)
                        && mem_str a explicit_false) argv)
  = List.length argv.
Proof.
  induction argv as [|x argv [IH1 IH2]]; [split; reflexivity|].
  rewrite filter_arguments_cons. cbn [filter].
  destruct (mem_str x explicit_true); [|destruct (mem_str x explicit_false)];
    cbn [fst snd orb andb negb List.length]; split; lia.
Qed.

(** X18. There is no warning to give exactly when no argument is one of
    the eight explicit forms, and the arguments then go through the loop
    unchanged. *)
Theorem arguments_without_explicit_form_are_kept argv :
  (fst (filter_arguments argv) = 0 <->
   forall a, In a argv ->
     mem_str a explicit_true = false /\ mem_str a explicit_false = false) /\
  (fst (filter_arguments argv) = 0 -> snd (filter_arguments argv) = argv).
Proof.
  assert (Hzero : fst (filter_arguments argv) = 0 ->
    forall a, In a argv ->
      mem_str a explicit_true = false /\ mem_str a explicit_false = false).
  { induction argv as [|x argv IH]; [now intros _ a []|].
    rewrite filter_arguments_cons.
    destruct (mem_str x explicit_true) eqn:Et;
      [|destruct (mem_str x explicit_false) eqn:Ef]; cbn [fst];
      try discriminate.
    intros H a [<-|Ha]; [now split | now apply IH]. }
  split; [split; [exact Hzero|]|].
  - intros H. now rewrite plain_arguments_kept.
  - intros H. now rewrite plain_arguments_kept by now apply Hzero.
Qed.

(* ================================================================== *)
(** * The client configuration *)

Section ClientFacts.

Variable CONFIG_FILE : string.
Variable new_configuration : Configuration.
Variable write_ca_cert : node -> error + string.

Local Abbreviation get_config :=
  (get_client_config new_configuration write_ca_cert).
Local Abbreviation client_config :=
  (main_client_config CONFIG_FILE new_configuration write_ca_cert).

(** X19. The token is needed before it is checked. When [k8s_token] is
    absent, null or not a string, [get_client_config] raises: the
    exception of the writing of the certificate, or the [TypeError] of the
    concatenation with ["Bearer "]. [main] calls it before
    [check_required_vars], which is then never reached: the failure is not
    [MissingRequiredVars] unless the writing of the certificate raised
    it. *)
Theorem missing_token_fails_before_the_check context :
  (forall token, Dict.get context "k8s_token" <> Some (NStr token)) ->
  (get_config context = Raise TypeError /\
   client_config context = Raise TypeError) \/
  (exists e,
     write_ca_cert (dict_get_or_none context "k8s_ca_base64") = inl e /\
     get_config context = Raise e /\ client_config context = Raise e).
Proof.
  intros Htoken. unfold main_client_config, get_client_config.
  destruct (write_ca_cert (dict_get_or_none context "k8s_ca_base64"))
    as [e|path]; cbn [of_sum bind].
  - right. now exists e.
  - left. unfold dict_get_or_none.
    destruct (Dict.get context "k8s_token") as [[| b | z | t | l | d]|];
      cbn [bearer bind]; auto.
    now elim (Htoken t).
Qed.

(** X20. What holds when the client configuration is made. When
    [get_client_config] followed by [check_required_vars] returns, the
    four variables are present and neither null nor empty, the token is a
    string and the key is ["Bearer "] followed by it, the host is the
    value of [k8s_master_uri], the certificate file is the one that was
    written, and debugging is on exactly when it was on in the new
    configuration or [k8s_handle_debug] is [True], ['true'] or
    ['True']. *)
Theorem client_config_made context c :
  client_config context = Ok c ->
  (forall name,
     In name ["k8s_master_uri"; "k8s_token"; "k8s_ca_base64";
              "k8s_namespace"] ->
     is_missing context name = false) /\
  (exists token,
     Dict.get context "k8s_token" = Some (NStr token) /\
     api_key c = [("authorization", "Bearer " ++ token)]) /\
  Dict.get context "k8s_master_uri" = Some (host c) /\
  write_ca_cert (dict_get_or_none context "k8s_ca_base64")
  = inr (ssl_ca_cert c) /\
  (debug c = true <->
   debug new_configuration = true \/
   exists x, Dict.get context "k8s_handle_debug" = Some x /\
             asks_debug x = true).
Proof.
  unfold main_client_config. intros H.
  destruct (get_config context) as [c'|e|] eqn:Eg; try discriminate.
  cbn [bind] in H.
  destruct (check_required_vars CONFIG_FILE context _) as [u|e|] eqn:Ec;
    try discriminate.
  cbn [bind] in H. inversion H; subst c'. clear H.
  destruct u. apply check_required_vars_ok_iff in Ec.
  assert (Hpresent : forall name,
    In name ["k8s_master_uri"; "k8s_token"; "k8s_ca_base64";
             "k8s_namespace"] -> is_missing context name = false).
  { intros name Hin. destruct (is_missing context name) eqn:E;
      [|reflexivity].
    assert (Hf : In name (filter (is_missing context)
                            ["k8s_master_uri"; "k8s_token";
                             "k8s_ca_base64"; "k8s_namespace"])).
    { apply filter_In. now split. }
    rewrite Ec in Hf. now elim Hf. }
  split; [exact Hpresent|].
  unfold get_client_config in Eg.
  destruct (write_ca_cert (dict_get_or_none context "k8s_ca_base64"))
    as [e|path]; cbn [of_sum bind] in Eg; [discriminate|].
  assert (Huri := Hpresent "k8s_master_uri" (or_introl eq_refl)).
  unfold is_missing in Huri. unfold dict_get_or_none in Eg.
  destruct (Dict.get context "k8s_master_uri") as [uri|]; [|discriminate].
  destruct (Dict.get context "k8s_token") as [[| b | z | t | l | d]|];
    cbn [bearer bind] in Eg; try discriminate.
  destruct (Dict.get context "k8s_handle_debug") as [x|].
  - destruct (asks_debug x) eqn:Ex; inversion Eg; subst c; cbn;
      (split; [now exists t|]); (split; [reflexivity|]);
      (split; [reflexivity|]).
    + split; [|reflexivity]. intros _. right. now exists x.
    + split; [now left|]. intros [H|(y & Hy & Hd)]; [exact H|].
      inversion Hy; subst. congruence.
  - inversion Eg; subst c; cbn.
    split; [now exists t|]. split; [reflexivity|]. split; [reflexivity|].
    split; [now left|]. intros [H|(y & Hy & _)]; [exact H | discriminate].
Qed.

End ClientFacts.

(* ================================================================== *)
(** * The further properties on sample documents *)

Lemma resolution_keeps_shape_witness :
  same_shape
    (fun x y =>
       fst (update_item Sample.no_environ false Sample.shared_files 2
              default_history x heap0) = Ok y)
    Sample.siblings
    (NMap [("a", NMap [("p", NInt 1)]); ("b", NMap [("p", NInt 1)])]).
Proof.
  apply (resolution_keeps_shape Sample.no_environ false Sample.shared_files
           2 Sample.siblings default_history heap0);
    [reflexivity | apply le_n | reflexivity | reflexivity].
Defined.

Lemma tree_without_braces_is_unchanged_witness :
  fst (_update_context_recursively Sample.some_environ true Sample.no_files
         3 Cases.plain_tree default_history heap0)
  = Ok Cases.plain_tree.
Proof.
  apply (tree_without_braces_is_unchanged Sample.some_environ true
           Sample.no_files 3 Cases.plain_tree heap0);
    [reflexivity | reflexivity | reflexivity | apply le_n].
Defined.

Lemma value_in_history_is_rejected_witness :
  fst (_update_context_recursively Sample.no_environ false Sample.b_files 1
         Sample.b_yaml 1 Cases.heap_with_history)
  = Raise InfiniteIncludeLoop.
Proof.
  destruct (value_in_history_is_rejected Sample.no_environ false
              Sample.b_files 0 Sample.b_yaml 1 Cases.heap_with_history
              Cases.seen_marker) as [_ H];
    [reflexivity | apply le_n | reflexivity | now left |].
  apply (H [] []); [reflexivity | intros x []].
Defined.

Lemma leading_self_include_is_rejected_witness :
  fst (_update_single_variable Sample.no_environ false Sample.b_files 1
         Cases.seen_marker default_history heap0)
  = Raise InfiniteIncludeLoop.
Proof.
  apply (leading_self_include_is_rejected Sample.no_environ false
           Sample.b_files 0 Cases.seen_marker "b.yaml" Sample.b_yaml []
           default_history heap0);
    [reflexivity | apply le_n | reflexivity | reflexivity | reflexivity
    | reflexivity].
Defined.

Lemma loaded_context_is_deployable_witness :
  exists d, NMap Cases.dev_context = NMap d /\
            (Dict.mem "templates" d = true \/ Dict.mem "kubectl" d = true).
Proof.
  apply (loaded_context_is_deployable Cases.image_environ true "common"
           "config.yaml" (Cases.files_of (NMap Cases.three_sections)) 5
           "dev" heap0 (NMap Cases.dev_context)).
  reflexivity.
Defined.

Lemma empty_section_name_never_loads_witness :
  fst (load_context_section Cases.image_environ true "common" "config.yaml"
         (Cases.files_of (NMap Cases.three_sections)) 4 "" heap0)
  <> Ok (NMap Cases.dev_context).
Proof.
  apply (empty_section_name_never_loads Cases.image_environ true "common"
           "config.yaml" (Cases.files_of (NMap Cases.three_sections)) 4
           heap0 (NMap Cases.dev_context)).
Defined.

Lemma document_that_is_no_mapping_fails_witness :
  fst (load_context_section Cases.image_environ true "common" "config.yaml"
         (Cases.files_of (NSeq [NStr "dev"])) 4 "dev" heap0)
  = Raise TypeError \/
  fst (load_context_section Cases.image_environ true "common" "config.yaml"
         (Cases.files_of (NSeq [NStr "dev"])) 4 "dev" heap0)
  = Raise (SectionNotFound "dev" "config.yaml").
Proof.
  apply (document_that_is_no_mapping_fails Cases.image_environ true "common"
           "config.yaml" (Cases.files_of (NSeq [NStr "dev"])) 4 "dev" heap0
           (NSeq [NStr "dev"]));
    [discriminate | reflexivity | discriminate | discriminate].
Defined.

Lemma two_sections_reach_nothing c u :
  Dict.get Cases.three_sections "common" = Some c ->
  Dict.get Cases.three_sections "dev" = Some u ->
  ~ reaches (Cases.files_of (NMap Cases.three_sections))
      (NMap (Dict.set (Dict.set [] "common" c) "dev" u)) "config.yaml".
Proof.
  intros Hc Hu H. inversion Hc; subst c. inversion Hu; subst u.
  inversion H; subst; simpl in *; contradiction.
Qed.

Lemma other_sections_play_no_part_witness :
  fst (load_context_section Cases.image_environ true "common" "config.yaml"
         (Cases.files_of (NMap Cases.three_sections)) 5 "dev" heap0)
  = fst (load_context_section Cases.image_environ true "common"
           "config.yaml" (Cases.files_of (NMap Cases.two_sections)) 5 "dev"
           heap0).
Proof.
  apply (other_sections_play_no_part Cases.image_environ true "common"
           "config.yaml" (Cases.files_of (NMap Cases.three_sections))
           (Cases.files_of (NMap Cases.two_sections)))
    with (d := Cases.three_sections) (d' := Cases.two_sections).
  - intros path Hp. unfold Cases.files_of.
    apply String.eqb_neq in Hp. now rewrite Hp.
  - reflexivity.
  - reflexivity.
  - reflexivity.
  - reflexivity.
  - reflexivity.
  - exact two_sections_reach_nothing.
Defined.

Lemma missing_token_fails_before_the_check_witness :
  main_client_config "config.yaml" Cases.blank_configuration
    Cases.write_to_tmp Cases.context_without_token
  = Raise TypeError.
Proof.
  destruct (missing_token_fails_before_the_check "config.yaml"
              Cases.blank_configuration Cases.write_to_tmp
              Cases.context_without_token) as [[_ H]|(e & He & _)].
  - intros token. discriminate.
  - exact H.
  - discriminate.
Defined.

Lemma client_config_made_witness :
  exists token,
    Dict.get Cases.cluster_context "k8s_token" = Some (NStr token) /\
    [("authorization", "Bearer secret")]
    = [("authorization", "Bearer " ++ token)].
Proof.
  apply (client_config_made "config.yaml" Cases.blank_configuration
           Cases.write_to_tmp Cases.cluster_context
           {| host := NStr "https://k8s.example.com";
              ssl_ca_cert := "/tmp/ca.crt";
              api_key := [("authorization", "Bearer secret")];
              debug := true |}).
  reflexivity.
Defined.

(* ================================================================== *)
(** * Acyclic includes: termination and the markers that are left *)



Lemma acyclic_everywhere load_yaml rank context :
  acyclic load_yaml rank -> acyclic_from load_yaml rank context.
Proof. intros H file w _ Hl. exact (H file w Hl). Qed.

Lemma acyclic_from_child load_yaml rank context v :
  In v (children context) -> (forall s, v <> NStr s) ->
  acyclic_from load_yaml rank context -> acyclic_from load_yaml rank v.
Proof.
  intros Hv Hs H file w Hr. apply H.
  now apply reaches_of_child with v.
Qed.

Lemma acyclic_from_file load_yaml rank context file w :
  In file (includes context) -> load_yaml file = Some w ->
  acyclic_from load_yaml rank context ->
  acyclic_from load_yaml rank w /\
  (forall g, In g (includes w) -> rank g < rank file).
Proof.
  intros Hf Hl H. split.
  - intros file' w' Hr. apply H. now apply reaches_through with file w.
  - apply (H file w); [now apply reaches_here | exact Hl].
Qed.







Section AcyclicFrom.

Variable environ : string -> option string.
Variable GET_ENVIRON_STRICT : bool.
Variable load_yaml : string -> option node.
Variable rank : string -> nat.

Local Abbreviation process :=
  (_process_variable environ GET_ENVIRON_STRICT load_yaml).
Local Abbreviation update :=
  (_update_context_recursively environ GET_ENVIRON_STRICT load_yaml).
Local Abbreviation resolve_ :=
  (resolve environ GET_ENVIRON_STRICT load_yaml).
Local Abbreviation resolve_item_ :=
  (resolve_item environ GET_ENVIRON_STRICT load_yaml).
Local Abbreviation enough fuel context :=
  (forall fuel' history, fuel <= fuel' ->
     resolve_ fuel' context history <> OutOfFuel).
Local Abbreviation enough_item fuel value :=
  (forall fuel' history, fuel <= fuel' ->
     resolve_item_ fuel' history value <> OutOfFuel).

Lemma child_terminates N context v :
  (forall N', N' < N -> forall c,
     (forall g, In g (includes c) -> rank g < N') ->
     acyclic_from load_yaml rank c -> exists fuel, enough fuel c) ->
  ((forall g, In g (includes v) -> rank g < N) ->
   acyclic_from load_yaml rank v -> exists fuel, enough fuel v) ->
  In v (children context) -> acyclic_from load_yaml rank context ->
  (forall g, In g (includes_of_value v) -> rank g < N) ->
  exists fuel, enough_item fuel v.
Proof.
  intros IHN IHv Hv Hac Hg.
  destruct v as [| b | z | s | l | d];
    try (destruct (IHv Hg) as (f & Hf);
         [apply (acyclic_from_child load_yaml rank context _ Hv);
          [discriminate | exact Hac]
         | exists f; intros fuel' history Hle; exact (Hf fuel' [] Hle)]).
  unfold resolve_item, resolve_single.
  destruct (INCLUDE_RE s) as [file|] eqn:E.
  - assert (Hp : process s = load_yaml_or_raise load_yaml file).
    { unfold _process_variable. now rewrite E. }
    unfold load_yaml_or_raise in Hp.
    destruct (load_yaml file) as [w|] eqn:El.
    + assert (Hfile : In file (includes context)).
      { apply includes_of_child with (NStr s); [exact Hv|].
        simpl. rewrite E. now left. }
      destruct (acyclic_from_file load_yaml rank context file w Hfile El Hac)
        as [Hw Hlow].
      destruct (IHN (rank file)) with (c := w) as (fuel & Hf).
      * apply Hg. simpl. rewrite E. now left.
      * exact Hlow.
      * exact Hw.
      * exists fuel. intros fuel' history Hle.
        destruct (mem_str s history); [discriminate|].
        rewrite Hp. simpl. now apply Hf.
    + exists 0. intros fuel' history _.
      destruct (mem_str s history); [discriminate|].
      rewrite Hp. discriminate.
  - exists 1. intros fuel' history Hle.
    destruct (mem_str s history); [discriminate|].
    destruct (process_without_include environ GET_ENVIRON_STRICT load_yaml
                s E) as [(t & ->)|(e & ->)]; [|discriminate].
    destruct fuel' as [|fuel']; [lia|]. discriminate.
Qed.

Lemma terminates_below : forall N context,
  (forall g, In g (includes context) -> rank g < N) ->
  acyclic_from load_yaml rank context ->
  exists fuel, enough fuel context.
Proof.
  induction N as [N IHN] using lt_wf_ind.
  induction context as [| | | |l IHl|d IHd] using node_induction;
    intros Hg Hac;
    try (exists 1; intros [|fuel'] history Hle; [lia|discriminate]).
  - destruct (enough_items environ GET_ENVIRON_STRICT load_yaml rank N l)
      as (fuel & Hf).
    + intros v Hin Hv.
      apply (child_terminates N (NSeq l) v IHN); auto.
      rewrite Forall_forall in IHl. now apply IHl.
    + exact Hg.
    + exists (S fuel). intros [|fuel'] history Hle; [lia|].
      rewrite resolve_S. intros H. apply bind_ok_out_of_fuel in H.
      revert H. apply pure_values_total.
      intros v Hin. apply (Hf v Hin). lia.
  - destruct (enough_items environ GET_ENVIRON_STRICT load_yaml rank N
                (map snd d)) as (fuel & Hf).
    + intros v Hin Hv.
      apply (child_terminates N (NMap d) v IHN); auto.
      rewrite Forall_forall in IHd. now apply IHd.
    + intros g Hin. apply Hg.
      now rewrite (includes_children (NMap d)).
    + exists (S fuel). intros [|fuel'] history Hle; [lia|].
      rewrite resolve_S. intros H. apply bind_ok_out_of_fuel in H.
      revert H. apply pure_items_total.
      intros v Hin. apply (Hf v Hin). lia.
Qed.

Lemma terminates_from context :
  acyclic_from load_yaml rank context -> exists fuel, enough fuel context.
Proof.
  apply (terminates_below (S (list_max (map rank (includes context))))).
  intros g Hin. apply Nat.lt_succ_r, list_max_ge. now apply in_map.
Qed.



(** X6. How the resolution ends. When the include graph reached from the
    tree is acyclic, the resolution ends, with enough fuel, and it ends
    with a tree or with one of three exceptions: [InfiniteIncludeLoop],
    the exception of [load_yaml] on a file it could not load, or, in
    strict mode only, [MissingEnvVarStrict] for a variable that is not
    set. *)
Theorem resolution_ends_with_tree_or_exception context r h :
  heap_ok h -> r < List.length h ->
  acyclic_from load_yaml rank context ->
  exists fuel, forall fuel', fuel <= fuel' ->
    (exists v, fst (update fuel' context r h) = Ok v) \/
    (exists e, fst (update fuel' context r h) = Raise e /\
       (e = InfiniteIncludeLoop \/
        (exists path, e = InvalidYamlError path /\ load_yaml path = None) \/
        (exists name, e = MissingEnvVarStrict name /\
                      GET_ENVIRON_STRICT = true /\ environ name = None))).
Proof.
  intros Hok Hr Hac. assert (Hs := sees_own r h Hok Hr).
  destruct (terminates_from context Hac) as (fuel & Hf).
  exists fuel. intros fuel' Hle.
  rewrite (update_fst environ GET_ENVIRON_STRICT load_yaml fuel' context r
             _ h Hs).
  destruct (resolve_ fuel' context (nth r h [])) as [v|e|] eqn:E.
  - left. now exists v.
  - right. exists e. split; [reflexivity|].
    exact (resolve_raises environ GET_ENVIRON_STRICT load_yaml fuel' context
             _ e E).
  - now elim (Hf fuel' (nth r h []) Hle).
Qed.

End AcyclicFrom.




Example chain_context_resolves :
  fst (_update_context_recursively Sample.some_environ true
         Sample.chain_files 4 Cases.chain_context default_history heap0)
  = Ok (NMap [("k", NMap [("x", NMap [("y", NInt 1)])]);
              ("home", NStr "dir=/root/app")]).
Proof. reflexivity. Qed.

Lemma resolution_ends_with_tree_or_exception_witness :
  exists fuel, forall fuel', fuel <= fuel' ->
    (exists v,
       fst (_update_context_recursively Sample.no_environ true
              Sample.chain_files fuel' Cases.chain_context default_history
              heap0) = Ok v) \/
    (exists e,
       fst (_update_context_recursively Sample.no_environ true
              Sample.chain_files fuel' Cases.chain_context default_history
              heap0) = Raise e /\
       (e = InfiniteIncludeLoop \/
        (exists path, e = InvalidYamlError path /\
                      Sample.chain_files path = None) \/
        (exists name, e = MissingEnvVarStrict name /\
                      true = true /\ Sample.no_environ name = None))).
Proof.
  apply (resolution_ends_with_tree_or_exception Sample.no_environ true
           Sample.chain_files Sample.chain_rank Cases.chain_context
           default_history heap0).
  - reflexivity.
  - apply le_n.
  - apply acyclic_everywhere. exact chain_files_acyclic.
Defined.

Example chain_context_strict_unset :
  fst (_update_context_recursively Sample.no_environ true
         Sample.chain_files 4 Cases.chain_context default_history heap0)
  = Raise (MissingEnvVarStrict "HOME").
Proof. reflexivity. Qed.
